(** * ik: the forward input plugin and the ikb load generator

    A shallow embedding of [plugins/in_forward.go] (the decoder of the
    forward protocol and its value normalizer) and of
    [entrypoints/ikb/main.go] (the partition of the work over the workers
    and the dial/retry loop of a worker), with the properties the
    specification states about them. *)

From Stdlib Require Import ZArith Lia Strings.Byte Strings.String.
From Stdlib Require Import Floats.SpecFloat.
From stdpp Require Import gmap strings list fin_maps.

#[local] Open Scope string_scope.
#[local] Open Scope list_scope.

(** ** Values produced by the codec

    The MessagePack handle is configured with
    [MapType = map[string]interface{}] and [RawToString = false], so a
    decoded [interface{}] holds one of the dynamic types below: raw data
    arrives as [[]byte], every map as [map[string]interface{}], every array
    as [[]interface{}].  A Go [string] is a sequence of bytes, as is Rocq's
    [string]. *)

#[local] Unset Elimination Schemes.
Inductive value : Type :=
  | Nil
  | Bool (b : bool)
  | Int64 (n : Z)
  | Uint64 (n : Z)
  | Float64 (f : spec_float)
  | Bytes (b : list byte)
  | Str (s : string)
  | Slice (l : list value)
  | Map (m : gmap string value).
#[local] Set Elimination Schemes.

(** [string(v_)] on a [[]byte]: the bytes are taken as they are. *)
Definition string_of_bytes (b : list byte) : string := string_of_list_byte b.

(** ** [coerceInPlace]

    The body of the [for k, v := range data] loop is the type switch
    [coerce_value]; the loop stores the result under the same key, so the
    loop is the pointwise image of the map.  The maps handed to
    [coerceInPlace] come fresh from the decoder and are referenced from one
    place only, so the in-place update is the functional one. *)
Fixpoint coerce_value (v : value) : value :=
  match v with
  | Bytes v_ => Str (string_of_bytes v_)
  | Map v_ => Map (coerce_value <$> v_)
  | _ => v
  end.

Definition coerceInPlace (data : gmap string value) : gmap string value :=
  coerce_value <$> data.

(** A measure for induction on values through the two nested containers. *)
Fixpoint value_size (v : value) : nat :=
  match v with
  | Slice l => S (foldr (λ x acc, value_size x + acc) 0 l)
  | Map m => S (map_fold (λ _ x acc, value_size x + acc) 0 m)
  | _ => 1
  end.

(** ** Where a byte-sequence can sit inside a value

    [has_bytes x]: a [[]byte] sits somewhere inside [x], behind any number
    of mappings and sequences.  [has_bytes_in_maps x]: a [[]byte] sits
    inside [x] behind mappings only. *)
Fixpoint has_bytes (x : value) : bool :=
  match x with
  | Bytes _ => true
  | Slice l => existsb has_bytes l
  | Map m => map_fold (λ _ y acc, has_bytes y || acc) false m
  | _ => false
  end.

Fixpoint has_bytes_in_maps (x : value) : bool :=
  match x with
  | Bytes _ => true
  | Map m => map_fold (λ _ y acc, has_bytes_in_maps y || acc) false m
  | _ => false
  end.

(** ** Results of a call

    A Go function here ends in one of three ways: it returns a value, it
    returns an [error], or it panics (a failed unchecked type assertion, an
    index out of range).  Nothing in the plugin recovers from a panic. *)
Inductive panic : Type :=
  | interface_conversion
  | index_out_of_range.

Inductive error : Type :=
  | errors_New (text : string)
  | Unknown_type (v : value)
  | codec_error (text : string).

Inductive outcome (A : Type) : Type :=
  | Ok (a : A)
  | Err (e : error)
  | Panic (p : panic).
Arguments Ok {A} a.
Arguments Err {A} e.
Arguments Panic {A} p.

#[global] Instance outcome_bind : MBind outcome := λ A B k r,
  match r with
  | Ok a => k a
  | Err e => Err e
  | Panic p => Panic p
  end.

(** An index expression [s[i]] panics out of range. *)
Definition index (s : list value) (i : nat) : outcome value :=
  match s !! i with
  | Some x => Ok x
  | None => Panic index_out_of_range
  end.

(** Modelled from the spec: the record type [ik.FluentRecord] is declared in
    the root package, outside the two source files; its three fields are the
    ones the plugin fills in (the Entry of the data model). *)
Record FluentRecord : Type := mkFluentRecord {
  Tag : string;
  Timestamp : Z;
  Data : gmap string value
}.

(** The zero value that [make([]ik.FluentRecord, n)] fills the slice with. *)
Definition zeroFluentRecord : FluentRecord :=
  {| Tag := ""; Timestamp := 0; Data := ∅ |}.

(** ** [decodeTinyEntries] *)

(** The body of the loop, for one [_entry]. *)
Definition decodeTinyEntry (tag : list byte) (_entry : value)
  : outcome FluentRecord :=
  match _entry with
  | Slice entry =>
      e0 ← index entry 0;
      match e0 with
      | Uint64 timestamp =>
          e1 ← index entry 1;
          match e1 with
          | Map data =>
              Ok {| Tag := string_of_bytes tag;
                    Timestamp := timestamp;
                    Data := coerceInPlace data |}
          | _ => Err (errors_New "Failed to decode data field")
          end
      | _ => Err (errors_New "Failed to decode timestamp field")
      end
  | _ => Panic interface_conversion
  end.

(** [for i, _entry := range entries]: the entries still to visit, the index
    [i] of the first of them, and [retval] as filled so far. *)
Fixpoint decodeTinyLoop (tag : list byte) (i : nat) (entries : list value)
    (retval : list FluentRecord) : outcome (list FluentRecord) :=
  match entries with
  | [] => Ok retval
  | _entry :: entries' =>
      r ← decodeTinyEntry tag _entry;
      decodeTinyLoop tag (S i) entries' (<[i := r]> retval)
  end.

Definition decodeTinyEntries (tag : list byte) (entries : list value)
  : outcome (list FluentRecord) :=
  let retval := replicate (length entries) zeroFluentRecord in
  decodeTinyLoop tag 0 entries retval.

(** The same records without the slice that is written by index: the
    records of the entries in order, up to the first entry that fails. *)
Fixpoint decodeTinyList (tag : list byte) (entries : list value)
  : outcome (list FluentRecord) :=
  match entries with
  | [] => Ok []
  | _entry :: entries' =>
      r ← decodeTinyEntry tag _entry;
      rs ← decodeTinyList tag entries';
      Ok (r :: rs)
  end.

(** ** Machine integers *)

(** The value of a 64-bit signed integer after an operation whose exact
    result is [z]. *)
Definition wrap_int64 (z : Z) : Z := ((z + 2 ^ 63) mod 2 ^ 64 - 2 ^ 63)%Z.

Definition atomic_AddInt64 (addr delta : Z) : Z := wrap_int64 (addr + delta).

(** The integer part of a finite float (the fraction is discarded). *)
Definition float64_trunc (f : spec_float) : option Z :=
  match f with
  | S754_zero _ => Some 0%Z
  | S754_finite s m e =>
      let a := if (0 <=? e)%Z then (Z.pos m * 2 ^ e)%Z
               else (Z.pos m / 2 ^ (- e))%Z in
      Some (if s then (- a)%Z else a)
  | _ => None
  end.

(** ** [decodeEntries] *)

(** The frame [v] after [c.dec.Decode(&v)] has succeeded: the three slots of
    [v] that the function reads.  [v] starts as three [nil]s; a slot the
    message has no element for keeps its [nil]. *)
Record Frame : Type := mkFrame { v0 : value; v1 : value; v2 : value }.

(** The listener's state that [decodeEntries] touches: the counter
    [entries], an [int64]. *)
Record ForwardInput : Type := mkForwardInput { entries : Z }.

Section decoder.

(** The codec is the library [github.com/ugorji/go/codec], outside the
    repository.  [DecodeBytes bs] is what
    [codec.NewDecoderBytes(bs, c.codec).Decode(&entries)] leaves in
    [entries], or the error it returns. *)
Variable DecodeBytes : list byte → error + list value.

(** [uint64(f)] on a [float64] is the truncation of [f] when that is a
    [uint64]; otherwise Go leaves the result to the implementation:
    [uint64_unrepresentable f]. *)
Variable uint64_unrepresentable : spec_float → Z.

Definition uint64_of_float64 (f : spec_float) : Z :=
  match float64_trunc f with
  | Some t =>
      if ((0 <=? t) && (t <? 2 ^ 64))%Z then t else uint64_unrepresentable f
  | None => uint64_unrepresentable f
  end.

(** Lines 81 to 140: the value of [retval] when line 141 is reached, or the
    error returned before.  [Decode] is the result of [c.dec.Decode(&v)]. *)
Definition decodeRetval (Decode : error + Frame)
  : outcome (list FluentRecord) :=
  match Decode with
  | inl err => Err err
  | inr v =>
      match v0 v with
      | Bytes tag =>
          let ok := true in
          match v1 v with
          | Uint64 timestamp_or_entries =>
              let timestamp := timestamp_or_entries in
              match v2 v with
              | Map data =>
                  Ok [ {| Tag := string_of_bytes tag;
                          Timestamp := timestamp;
                          Data := coerceInPlace data |} ]
              | _ => Err (errors_New "Failed to decode data field")
              end
          | Float64 timestamp_or_entries =>
              let timestamp := uint64_of_float64 timestamp_or_entries in
              match v2 v with
              | Map data =>
                  Ok [ {| Tag := string_of_bytes tag;
                          Timestamp := timestamp;
                          Data := data |} ]
              | _ => Err (errors_New "Failed to decode data field")
              end
          | Slice timestamp_or_entries =>
              if negb ok then Err (errors_New "Unexpected payload format")
              else decodeTinyEntries tag timestamp_or_entries
          | Bytes timestamp_or_entries =>
              match DecodeBytes timestamp_or_entries with
              | inl err => Err err
              | inr entries => decodeTinyEntries tag entries
              end
          | timestamp_or_entries => Err (Unknown_type timestamp_or_entries)
          end
      | _ => Err (errors_New "Failed to decode tag field")
      end
  end.

(** The whole call: on success the counter grows by [len(retval)]; a call
    that returns an error has returned before line 141. *)
Definition decodeEntries (Decode : error + Frame) (input : ForwardInput)
  : outcome (list FluentRecord) * ForwardInput :=
  match decodeRetval Decode with
  | Ok retval =>
      (Ok retval,
       {| entries := atomic_AddInt64 (entries input)
                       (Z.of_nat (length retval)) |})
  | Err err => (Err err, input)
  | Panic p => (Panic p, input)
  end.

(** The calls of [decodeEntries] made by the handlers of all connections, in
    the order in which their atomic additions take effect.  A panic ends the
    process, and the calls after it are not made. *)
Fixpoint decodeCalls (calls : list (error + Frame)) (input : ForwardInput)
  : list (outcome (list FluentRecord)) * ForwardInput :=
  match calls with
  | [] => ([], input)
  | Decode :: calls' =>
      match decodeEntries Decode input with
      | (Panic p, input') => ([Panic p], input')
      | (r, input') =>
          let '(rs, input'') := decodeCalls calls' input' in
          (r :: rs, input'')
      end
  end.

End decoder.

(** The number of entries a call contributes. *)
Definition produced (r : outcome (list FluentRecord)) : Z :=
  match r with
  | Ok retval => Z.of_nat (length retval)
  | _ => 0%Z
  end.

Definition total_produced (rs : list (outcome (list FluentRecord))) : Z :=
  foldr (λ r acc, (produced r + acc)%Z) 0%Z rs.

(** ** An instance of the codec parameter

    The theorems below hold for every decoder.  The examples need one:
    [msgpack_DecodeBytes] reads a fragment of MessagePack (nil, booleans,
    uint 8 to 64, float 64, fixraw, fixarray, fixmap), with raw data decoded
    to [[]byte] and map keys to [string], as the handle is configured. *)
Definition be_uint (bs : list byte) : Z :=
  foldl (λ acc b, (acc * 256 + Z.of_N (Byte.to_N b))%Z) 0%Z bs.

Definition float64_of_bits (bits : Z) : spec_float :=
  let s := Z.testbit bits 63 in
  let e := Z.land (Z.shiftr bits 52) 2047 in
  let m := Z.land bits (2 ^ 52 - 1) in
  if (e =? 0)%Z then
    match m with Z.pos p => S754_finite s p (-1074) | _ => S754_zero s end
  else if (e =? 2047)%Z then
    if (m =? 0)%Z then S754_infinity s else S754_nan
  else
    match (m + 2 ^ 52)%Z with
    | Z.pos p => S754_finite s p (e - 1075)
    | _ => S754_nan
    end.

Definition take_exact (n : nat) (bs : list byte)
  : option (list byte * list byte) :=
  if decide (n ≤ length bs)%nat then Some (take n bs, drop n bs) else None.

Fixpoint read_many {A} (read : list byte → option (A * list byte))
    (n : nat) (bs : list byte) : option (list A * list byte) :=
  match n with
  | 0 => Some ([], bs)
  | S n =>
      '(x, bs) ← read bs;
      '(xs, bs) ← read_many read n bs;
      Some (x :: xs, bs)
  end.

Fixpoint msgpack_read (fuel : nat) (bs : list byte)
  : option (value * list byte) :=
  match fuel, bs with
  | S fuel, b :: bs =>
      let c := Z.of_N (Byte.to_N b) in
      if (c =? 192)%Z then Some (Nil, bs)
      else if (c =? 194)%Z then Some (Bool false, bs)
      else if (c =? 195)%Z then Some (Bool true, bs)
      else if (c =? 203)%Z then
        '(x, bs) ← take_exact 8 bs;
        Some (Float64 (float64_of_bits (be_uint x)), bs)
      else if ((204 <=? c) && (c <=? 207))%Z then
        '(x, bs) ← take_exact (2 ^ Z.to_nat (c - 204)) bs;
        Some (Uint64 (be_uint x), bs)
      else if ((160 <=? c) && (c <=? 191))%Z then
        '(x, bs) ← take_exact (Z.to_nat (c - 160)) bs;
        Some (Bytes x, bs)
      else if ((144 <=? c) && (c <=? 159))%Z then
        '(l, bs) ← read_many (msgpack_read fuel) (Z.to_nat (c - 144)) bs;
        Some (Slice l, bs)
      else if ((128 <=? c) && (c <=? 143))%Z then
        '(kvs, bs) ← read_many
          (λ bs, '(k, bs) ← msgpack_read fuel bs;
                 '(x, bs) ← msgpack_read fuel bs;
                 match k with
                 | Bytes kb => Some ((string_of_bytes kb, x), bs)
                 | _ => None
                 end)
          (Z.to_nat (c - 128)) bs;
        Some (Map (list_to_map (reverse kvs)), bs)
      else None
  | _, _ => None
  end.

Definition msgpack_DecodeBytes (bs : list byte) : error + list value :=
  match msgpack_read (length bs) bs with
  | Some (Slice l, _) => inr l
  | _ => inl (codec_error "msgpack decode error")
  end.

(** ** What the specification calls a pair

    [exact_pair]: a sequence of exactly two values, an unsigned integer and
    a mapping (the [[timestamp, data]] pair of the specification).
    [typed_pair]: a sequence that starts with these two.  [long_enough]: a
    sequence of at least two values, whatever they are. *)
Definition exact_pair (x : value) : bool :=
  match x with
  | Slice [Uint64 _; Map _] => true
  | _ => false
  end.

Definition typed_pair (x : value) : bool :=
  match x with
  | Slice (Uint64 _ :: Map _ :: _) => true
  | _ => false
  end.

Definition long_enough (x : value) : bool :=
  match x with
  | Slice (_ :: _ :: _) => true
  | _ => false
  end.

Definition is_Uint64 (x : value) : bool :=
  match x with
  | Uint64 _ => true
  | _ => false
  end.

(** The pair [[timestamp, data]] as the codec hands it over, and the record
    the decoder makes of it. *)
Definition pair_value (p : Z * gmap string value) : value :=
  Slice [Uint64 p.1; Map p.2].

Definition pair_record (tag : list byte) (p : Z * gmap string value)
  : FluentRecord :=
  {| Tag := string_of_bytes tag; Timestamp := p.1;
     Data := coerceInPlace p.2 |}.

(** ** Inputs of the examples *)

(** One choice of the results that Go leaves to the implementation. *)
Definition any_uint64 (f : spec_float) : Z := 0%Z.

Definition sample_tag : list byte := ["a"; "p"; "p"]%byte.

Definition sample_data : gmap string value := {[ "k" := Bytes ["v"%byte] ]}.

(** The sequence [[1000, {"k": "v"}], [1001, {}]], and its encoding. *)
Definition sample_pairs : list value :=
  [Slice [Uint64 1000; Map sample_data]; Slice [Uint64 1001; Map ∅]].

Definition sample_packed : list byte :=
  [x92; x92; xce; x00; x00; x03; xe8; x81; xa1; "k"; xa1; "v";
        x92; xce; x00; x00; x03; xe9; x80]%byte.

(** The float 1.5, as binary64 reads it (3 * 2^51 * 2^-52), and the
    sequence [[1000, {}], [1.5, {}]] with its encoding. *)
Definition one_and_a_half : spec_float :=
  S754_finite false 6755399441055744 (-52).

Definition float_pairs : list value :=
  [Slice [Uint64 1000; Map ∅]; Slice [Float64 one_and_a_half; Map ∅]].

Definition float_packed : list byte :=
  [x92; x92; xce; x00; x00; x03; xe8; x80;
        x92; xcb; x3f; xf8; x00; x00; x00; x00; x00; x00; x80]%byte.

(** An entry of three values that starts like a pair. *)
Definition long_entry : value := Slice [Uint64 1; Map ∅; Nil].

(** Three calls: a Message frame, a failed decode, a Forward frame. *)
Definition sample_calls : list (error + Frame) :=
  [inr (mkFrame (Bytes sample_tag) (Uint64 1000) (Map sample_data));
   inl (codec_error "unexpected EOF");
   inr (mkFrame (Bytes sample_tag) (Slice sample_pairs) Nil)].

(** * The load generator [ikb] *)

Module Ikb.

(** Go's [int], 64 bits wide. *)
Definition wrap_int (z : Z) : Z := wrap_int64 z.

(** [a / b] and [a % b] on [int]: truncated division, a run-time panic when
    the divisor is zero. *)
Definition int_div (a b : Z) : option Z :=
  if decide (b = 0%Z) then None else Some (wrap_int (Z.quot a b)).

Definition int_rem (a b : Z) : option Z :=
  if decide (b = 0%Z) then None else Some (Z.rem a b).

(** The fields of [IkBenchParams] that [Run] computes with. *)
Record IkBenchParams : Type := mkIkBenchParams {
  NumberOfRecordsToSend : Z;
  NumberOfRecordsSentAtOnce : Z;
  Concurrency : Z;
  MaxRetryCount : Z
}.

(** [Run], lines 72 to 117: the arguments [(id, attempts)] of the goroutines
    it starts, in the order of the loop; [None] when a division panics. *)
Definition Run_goroutines (params : IkBenchParams) : option (list (Z * Z)) :=
  numberOfAttempts ←
    int_div (NumberOfRecordsToSend params) (NumberOfRecordsSentAtOnce params);
  numberOfAttemptsPerProc ← int_div numberOfAttempts (Concurrency params);
  remainder ← int_rem numberOfAttempts (Concurrency params);
  Some ((λ i, let r := if (i <? remainder)%Z then 1%Z else 0%Z in
              (i, wrap_int (numberOfAttemptsPerProc + r)))
          <$> seqZ 0 (Concurrency params)).

(** The partition in the words of the specification: the number of
    attempts, and the load of worker [i]: the floor of attempts over
    concurrency, plus one for the first [attempts mod concurrency]
    workers. *)
Definition spec_attempts (params : IkBenchParams) : Z :=
  (NumberOfRecordsToSend params / NumberOfRecordsSentAtOnce params)%Z.

Definition spec_load (params : IkBenchParams) (i : Z) : Z :=
  (spec_attempts params / Concurrency params
   + if i <? spec_attempts params mod Concurrency params then 1 else 0)%Z.

Definition total_attempts (gs : list (Z * Z)) : Z :=
  foldr (λ g acc, (g.2 + acc)%Z) 0%Z gs.

(** The work item of the scenario: count 100, batch size 10, concurrency
    3, and the retry budget that [main] passes. *)
Definition sample_params : IkBenchParams :=
  {| NumberOfRecordsToSend := 100; NumberOfRecordsSentAtOnce := 10;
     Concurrency := 3; MaxRetryCount := 5 |}.

(** ** A worker

    The goroutine of lines 81 to 116 as a machine: it waits at [net.Dial]
    ([at_dial]), at [ikb.Send] within its attempt [i] ([at_send i]), or it
    has sent its [id] on [sync] ([finished]).  The environment decides how
    each dial and each send ends. *)
Inductive location : Type :=
  | at_dial
  | at_send (i : Z)
  | finished.

Record worker : Type := mkWorker {
  id : Z;
  attempts : Z;
  retryCount : Z;
  loc : location
}.

Inductive event : Type :=
  | dial_error
  | dial_ok
  | send_ok
  | send_temporary
  | send_error.

(** What a step of a worker does: it goes on as [w], or it calls
    [log.Fatal], which prints and calls [os.Exit(1)]. *)
Inductive effect : Type :=
  | goes_on (w : worker)
  | log_Fatal.

Definition move (w : worker) (l : location) : worker :=
  {| id := id w; attempts := attempts w; retryCount := retryCount w;
     loc := l |}.

(** The head of the inner [for i := 0; i < attempts; i += 1] loop. *)
Definition attempt_or_finish (w : worker) (i : Z) : worker :=
  if (i <? attempts w)%Z then move w (at_send i) else move w finished.

Definition worker_step (ev : event) (w : worker) : option effect :=
  match loc w, ev with
  | at_dial, dial_error =>
      let retryCount' := wrap_int (retryCount w - 1) in
      if (retryCount' <? 0)%Z then Some log_Fatal
      else Some (goes_on {| id := id w; attempts := attempts w;
                            retryCount := retryCount'; loc := at_dial |})
  | at_dial, dial_ok => Some (goes_on (attempt_or_finish w 0))
  | at_send i, send_ok =>
      Some (goes_on (attempt_or_finish w (wrap_int (i + 1))))
  | at_send i, send_temporary => Some (goes_on w)
  | at_send i, send_error => Some (goes_on (move w finished))
  | _, _ => None
  end.

(** ** The process

    The goroutines of one [Run] share the process: [os.Exit] ends all of
    them at once, with no further step of any. *)
Inductive process : Type :=
  | running (ws : list worker)
  | exited (status : Z).

(** Worker number [j] takes a step on the event [ev]. *)
Definition process_step (j : nat) (ev : event) (p : process)
  : option process :=
  match p with
  | exited _ => None
  | running ws =>
      w ← ws !! j;
      eff ← worker_step ev w;
      Some match eff with
           | goes_on w' => running (<[j := w']> ws)
           | log_Fatal => exited 1
           end
  end.

Fixpoint exec (schedule : list (nat * event)) (p : process)
  : option process :=
  match schedule with
  | [] => Some p
  | (j, ev) :: schedule' => p' ← process_step j ev p; exec schedule' p'
  end.

(** The process when [Run] has started its goroutines. *)
Definition start (params : IkBenchParams) : option process :=
  gs ← Run_goroutines params;
  Some (running ((λ g, {| id := g.1; attempts := g.2;
                          retryCount := MaxRetryCount params;
                          loc := at_dial |}) <$> gs)).

(** Worker [j] has completed: it has reported on [sync]. *)
Definition completed (j : nat) (p : process) : Prop :=
  ∃ ws w, p = running ws ∧ ws !! j = Some w ∧ loc w = finished.

(** ** [main]: the checks before [Run]

    Lines 174 to 193, on the parsed [count], [-multi] and [-concurrent]:
    the process exits with status 255 and a message, or [Run] is called with
    a retry budget of 5.  [None]: the [%] of line 174 panics. *)
Inductive checked : Type :=
  | exitWithMessage (message : string) (exitStatus : Z)
  | run (params : IkBenchParams).

Definition main_checks
    (numberOfRecordsToSend numberOfRecordsSentAtOnce concurrency : Z)
  : option checked :=
  r ← int_rem numberOfRecordsToSend numberOfRecordsSentAtOnce;
  if decide (r ≠ 0%Z) then
    Some (exitWithMessage
            "the value of 'count' must be a multiple of 'multi'" 255)
  else
    q ← int_div numberOfRecordsToSend numberOfRecordsSentAtOnce;
    if (q <? concurrency)%Z then
      Some (exitWithMessage
              "the value of 'concurrency' must be equal to or greater than the division of 'count' by 'multi'"
              255)
    else
      Some (run {| NumberOfRecordsToSend := numberOfRecordsToSend;
                   NumberOfRecordsSentAtOnce := numberOfRecordsSentAtOnce;
                   Concurrency := concurrency;
                   MaxRetryCount := 5 |}).

(** ** [Send]: the messages of one attempt *)

Record Record_ : Type := mkRecord {
  Timestamp : Z;
  Data : gmap string value
}.

(** What [Send] hands to the encoder: [encodeEntrySingle] encodes
    [[tag, record.Timestamp, record.Data]], [encodeEntryBulk] encodes
    [[tag, records]]. *)
Inductive message : Type :=
  | encodeEntrySingle (tag : string) (record : Record_)
  | encodeEntryBulk (tag : string) (records : list Record_).

(** [uint64(time_)] on an [int64]. *)
Definition uint64_of_int64 (z : Z) : Z := (z mod 2 ^ 64)%Z.

(** Lines 49 to 52: the slice is made, then filled by index.  [make] panics
    on a negative length. *)
Definition Send_records (data : gmap string value) (n time_ : Z)
  : option (list Record_) :=
  if (n <? 0)%Z then None
  else
    Some (foldl (λ records i,
                   <[i := {| Timestamp := uint64_of_int64 time_;
                             Data := data |}]> records)
            (replicate (Z.to_nat n) {| Timestamp := 0; Data := ∅ |})
            (seq 0 (Z.to_nat n))).

(** Lines 53 to 66, when the encoder accepts every message: the messages
    written to the buffer, in order. *)
Definition Send_messages (simple : bool) (tag : string)
    (data : gmap string value) (n time_ : Z) : option (list message) :=
  records ← Send_records data n time_;
  Some (if simple then encodeEntrySingle tag <$> records
        else [encodeEntryBulk tag records]).

(** The records that a message carries. *)
Definition carried (m : message) : list Record_ :=
  match m with
  | encodeEntrySingle _ record => [record]
  | encodeEntryBulk _ records => records
  end.

Definition message_tag (m : message) : string :=
  match m with
  | encodeEntrySingle tag _ => tag
  | encodeEntryBulk tag _ => tag
  end.

(** The steps of worker [j] whose dial succeeds and whose attempts succeed,
    attempt [k] after [temps !! k] temporary failures. *)
Definition good_run (j : nat) (temps : list nat) : list (nat * event) :=
  (j, dial_ok)
  :: mjoin ((λ t, replicate t (j, send_temporary) ++ [(j, send_ok)])
              <$> temps).

(** Two workers of the examples: one that dials, one in its first
    attempt. *)
Definition sample_workers : list worker :=
  [ {| id := 0; attempts := 2; retryCount := 5; loc := at_dial |};
    {| id := 1; attempts := 2; retryCount := 5; loc := at_send 0 |} ].

End Ikb.

(** * The connection handler and the registry *)

(** A sequence that makes line 61, 62 or 66 panic: a value that is no
    sequence, an empty sequence, a sequence of one unsigned integer. *)
Definition crashes (x : value) : bool :=
  match x with
  | Slice [] => true
  | Slice [Uint64 _] => true
  | Slice _ => false
  | _ => true
  end.


Definition is_Float64 (x : value) : bool :=
  match x with
  | Float64 _ => true
  | _ => false
  end.

(** The client of a connection; a connection is known by its identity. *)
Record forwardClient : Type := mkForwardClient { conn : nat }.

(** The listener: the counter of [ForwardInput], its registry [clients], and
    the batches handed to [Port().Emit], the oldest first. *)
Record Listener : Type := mkListener {
  counter : ForwardInput;
  clients : gmap nat forwardClient;
  emitted : list (list FluentRecord)
}.

Definition markCharged (c : forwardClient) (s : Listener) : Listener :=
  {| counter := counter s; clients := <[conn c := c]> (clients s);
     emitted := emitted s |}.

Definition markDischarged (c : forwardClient) (s : Listener) : Listener :=
  {| counter := counter s; clients := delete (conn c) (clients s);
     emitted := emitted s |}.

(** [newForwardClient]: the client of [conn], registered. *)
Definition newForwardClient (conn : nat) (s : Listener)
  : forwardClient * Listener :=
  let c := {| conn := conn |} in (c, markCharged c s).

(** [ConnectionCountTopic.PlainText] prints [len(topic.input.clients)]. *)
Definition connectionCount (s : Listener) : nat := size (clients s).

(** How the loop of [handle] ends on a script of decode results: it waits
    for the next message, it has left the loop through [break], or a panic
    has ended the process. *)
Inductive loop_end : Type :=
  | waiting
  | broke
  | panicked (p : panic).

Inductive handler_end : Type :=
  | active
  | closed
  | crashed (p : panic).

Section handler.

Variable DecodeBytes : list byte → error + list value.
Variable uint64_unrepresentable : spec_float → Z.

(** [err.(net.Error)] with [Temporary()]: an error made by [errors.New] is
    no [net.Error]; of the errors of the codec, the transport says which are
    temporary. *)
Variable net_Temporary : string → bool.

Definition temporary (err : error) : bool :=
  match err with
  | codec_error text => net_Temporary text
  | _ => false
  end.

(** The [for] loop of [handle], lines 146 to 164.  [script] holds the
    results of the calls of [c.dec.Decode] that the connection delivers, in
    order. *)
Fixpoint handle_loop (script : list (error + Frame)) (s : Listener)
  : loop_end * Listener :=
  match script with
  | [] => (waiting, s)
  | Decode :: script' =>
      match decodeEntries DecodeBytes uint64_unrepresentable Decode
              (counter s) with
      | (Ok entries, input') =>
          handle_loop script'
            {| counter := input'; clients := clients s;
               emitted := emitted s ++ [entries] |}
      | (Err err, input') =>
          if temporary err then
            handle_loop script'
              {| counter := input'; clients := clients s;
                 emitted := emitted s |}
          else
            (broke, {| counter := input'; clients := clients s;
                       emitted := emitted s |})
      | (Panic p, _) => (panicked p, s)
      end
  end.

(** [handle]: after the loop the connection is closed (a failure to close
    is logged) and the client is taken out of the registry. *)
Definition handle (c : forwardClient) (script : list (error + Frame))
    (s : Listener) : handler_end * Listener :=
  match handle_loop script s with
  | (waiting, s') => (active, s')
  | (broke, s') => (closed, markDischarged c s')
  | (panicked p, s') => (crashed p, s')
  end.

(** [ForwardInput.Run]: one [Accept].  The client is made, and so
    registered, before the goroutine of its handler starts. *)
Definition Run (accept : error + nat) (s : Listener)
  : (error + forwardClient) * Listener :=
  match accept with
  | inl err => (inl err, s)
  | inr conn => let '(c, s') := newForwardClient conn s in (inr c, s')
  end.

(** A decode result on which the loop goes on: a frame that decodes, or a
    temporary error. *)
Definition passes (Decode : error + Frame) : bool :=
  match decodeRetval DecodeBytes uint64_unrepresentable Decode with
  | Ok _ => true
  | Err err => temporary err
  | Panic _ => false
  end.

(** The batch that a decode result makes the handler emit. *)
Definition batch_of (Decode : error + Frame) : list (list FluentRecord) :=
  match decodeRetval DecodeBytes uint64_unrepresentable Decode with
  | Ok entries => [entries]
  | _ => []
  end.

(** The batches that the loop emits on a script: those of the frames that
    decode, up to the first result on which the loop stops. *)
Fixpoint emitted_by (script : list (error + Frame))
  : list (list FluentRecord) :=
  match script with
  | [] => []
  | Decode :: script' =>
      match decodeRetval DecodeBytes uint64_unrepresentable Decode with
      | Ok batch => batch :: emitted_by script'
      | Err err => if temporary err then emitted_by script' else []
      | Panic _ => []
      end
  end.

End handler.

(** The number of records in a list of batches. *)
Definition records_in (batches : list (list FluentRecord)) : Z :=
  foldr (λ b acc, (Z.of_nat (length b) + acc)%Z) 0%Z batches.

(** The classification of the examples: only a timeout is temporary. *)
Definition timeout_only (text : string) : bool :=
  if decide (text = "i/o timeout") then true else false.

(** A script: a Message frame, a timeout, a Forward frame, a frame without
    a tag, and a frame that is never decoded. *)
Definition sample_script : list (error + Frame) :=
  [inr (mkFrame (Bytes sample_tag) (Uint64 1000) (Map sample_data));
   inl (codec_error "i/o timeout");
   inr (mkFrame (Bytes sample_tag) (Slice sample_pairs) Nil);
   inr (mkFrame Nil Nil Nil);
   inr (mkFrame (Bytes sample_tag) (Uint64 1002) (Map ∅))].

Definition empty_listener : Listener :=
  {| counter := mkForwardInput 0; clients := ∅; emitted := [] |}.

(** * Properties of the normalizer *)

Lemma coerce_value_Map (m : gmap string value) :
  coerce_value (Map m) = Map (coerceInPlace m).
Proof. reflexivity. Qed.

Lemma value_size_entry (m : gmap string value) k x :
  m !! k = Some x → value_size x < value_size (Map m).
Proof.
  intros Hk. cbn [value_size].
  rewrite (map_fold_delete_L _ _ k x m); [lia | intros; lia | exact Hk].
Qed.

Lemma value_size_elem (l : list value) x :
  x ∈ l → value_size x < value_size (Slice l).
Proof.
  cbn [value_size]. induction 1 as [y l | y z l _ IH]; cbn [foldr]; lia.
Qed.

(** Induction on values, with the entries of a mapping and the elements of a
    sequence as the smaller values. *)
Lemma value_ind (P : value → Prop) :
  P Nil →
  (∀ b, P (Bool b)) →
  (∀ n, P (Int64 n)) →
  (∀ n, P (Uint64 n)) →
  (∀ f, P (Float64 f)) →
  (∀ b, P (Bytes b)) →
  (∀ s, P (Str s)) →
  (∀ l, Forall P l → P (Slice l)) →
  (∀ m, map_Forall (λ _ x, P x) m → P (Map m)) →
  ∀ x, P x.
Proof.
  intros HNil HBool HInt HUint HFloat HBytes HStr HSlice HMap x.
  remember (value_size x) as sz eqn:Hsz. revert x Hsz.
  induction sz as [sz IH] using lt_wf_ind. intros x ->.
  destruct x; auto.
  - apply HSlice, Forall_forall. intros y Hy.
    apply (IH (value_size y)); [by apply value_size_elem | done].
  - apply HMap. intros k y Hk.
    apply (IH (value_size y)); [by apply (value_size_entry _ k) | done].
Qed.

(** A fold of [||] over a mapping is [false] when every entry is. *)
Lemma map_fold_orb_false (f : value → bool) (m : gmap string value) :
  map_fold (λ _ y acc, f y || acc) false m = false
  ↔ map_Forall (λ _ y, f y = false) m.
Proof.
  apply (map_fold_weak_ind
           (λ r m, r = false ↔ map_Forall (λ _ y, f y = false) m)).
  - split; [intros _; apply map_Forall_empty | done].
  - intros k y m' r Hk IH.
    rewrite orb_false_iff, map_Forall_insert by done. by rewrite IH.
Qed.

Lemma has_bytes_in_maps_Map (m : gmap string value) :
  has_bytes_in_maps (Map m) = false
  ↔ map_Forall (λ _ y, has_bytes_in_maps y = false) m.
Proof. apply map_fold_orb_false. Qed.

Lemma has_bytes_Map (m : gmap string value) :
  has_bytes (Map m) = false ↔ map_Forall (λ _ y, has_bytes y = false) m.
Proof. apply map_fold_orb_false. Qed.

(** The type switch leaves no byte-sequence behind mappings. *)
Lemma coerce_value_no_bytes_in_maps x :
  has_bytes_in_maps (coerce_value x) = false.
Proof.
  induction x as [| | | | | | | l _ | m IH] using value_ind; try done.
  rewrite coerce_value_Map. apply has_bytes_in_maps_Map.
  unfold coerceInPlace. apply map_Forall_fmap.
  intros k y Hk. exact (IH k y Hk).
Qed.

(** The type switch has no case for a sequence. *)
Lemma coerce_value_Slice l : coerce_value (Slice l) = Slice l.
Proof. reflexivity. Qed.

Lemma coerce_value_idemp x : coerce_value (coerce_value x) = coerce_value x.
Proof.
  induction x as [| | | | | | | l _ | m IH] using value_ind; try done.
  cbn [coerce_value]. f_equal.
  rewrite <- map_fmap_compose. apply map_fmap_ext.
  intros k y Hk. exact (IH k y Hk).
Qed.

(** A sequence of byte-sequences is a value that holds byte-sequences, and
    normalization returns it as it was. *)
Example coerceInPlace_keeps_bytes_in_sequences :
  coerceInPlace {[ "a" := Slice [Bytes ["x"%byte]] ]}
  = {[ "a" := Slice [Bytes ["x"%byte]] ]}.
Proof. reflexivity. Qed.

(** C2, as stated, fails: after normalization of the mapping
    [{"a": [<bytes "x">]}] a byte-sequence is still reachable in it, inside
    the sequence stored under ["a"]. *)
Lemma coerceInPlace_leaves_bytes_in_sequences :
  has_bytes (Map (coerceInPlace {[ "a" := Slice [Bytes ["x"%byte]] ]})) = true.
Proof. vm_compute. reflexivity. Qed.

(** C2, amended: after normalization no byte-sequence remains in the mapping
    behind mappings only (its values, the values of a nested mapping, and so
    on); a sequence of values is returned unchanged, byte-sequences
    included. *)
Theorem coerceInPlace_no_bytes_in_maps (data : gmap string value) :
  has_bytes_in_maps (Map (coerceInPlace data)) = false
  ∧ ∀ k l, data !! k = Some (Slice l) →
           coerceInPlace data !! k = Some (Slice l).
Proof.
  split.
  - exact (coerce_value_no_bytes_in_maps (Map data)).
  - intros k l Hk. unfold coerceInPlace. by rewrite lookup_fmap, Hk.
Qed.

(** C9: normalization is idempotent: applying [coerceInPlace] twice gives
    the mapping that applying it once gives. *)
Theorem coerceInPlace_idempotent (data : gmap string value) :
  coerceInPlace (coerceInPlace data) = coerceInPlace data.
Proof.
  pose proof (coerce_value_idemp (Map data)) as H.
  rewrite !coerce_value_Map in H. by injection H.
Qed.

(** * Properties of the decoder *)

(** ** The loop of [decodeTinyEntries] *)

(** The records of the entries one after the other, up to the first entry
    that fails. *)
Lemma decodeTinyLoop_app tag entries done zeros :
  length zeros = length entries →
  decodeTinyLoop tag (length done) entries (done ++ zeros)
  = decodeTinyList tag entries ≫= λ rs, Ok (done ++ rs).
Proof.
  revert done zeros.
  induction entries as [|_entry entries IH]; intros done zeros Hlen.
  - destruct zeros; [| done]. reflexivity.
  - destruct zeros as [|z zeros]; [done |].
    cbn [decodeTinyLoop decodeTinyList].
    destruct (decodeTinyEntry tag _entry) as [r | e | p]; try reflexivity.
    cbn [mbind outcome_bind].
    replace (<[length done := r]> (done ++ z :: zeros))
      with ((done ++ [r]) ++ zeros).
    2:{ rewrite <- (Nat.add_0_r (length done)), insert_app_r.
        by rewrite <- app_assoc. }
    replace (S (length done)) with (length (done ++ [r])).
    2:{ rewrite length_app. cbn. lia. }
    rewrite IH by (cbn in Hlen; lia).
    destruct (decodeTinyList tag entries) as [rs | e | p]; try reflexivity.
    cbn [mbind outcome_bind]. by rewrite <- app_assoc.
Qed.

Lemma decodeTinyEntries_list tag entries :
  decodeTinyEntries tag entries = decodeTinyList tag entries.
Proof.
  unfold decodeTinyEntries.
  pose proof (decodeTinyLoop_app tag entries []
                (replicate (length entries) zeroFluentRecord)) as H.
  cbn [length app] in H. rewrite H by apply length_replicate.
  by destruct (decodeTinyList tag entries).
Qed.

(** ** One entry *)

Lemma decodeTinyEntry_typed tag x :
  typed_pair x = true → ∃ r, decodeTinyEntry tag x = Ok r.
Proof.
  destruct x as [| | | | | | | [|[] [|[] l]] |]; try done. eauto.
Qed.

Lemma decodeTinyEntry_ill_typed tag x :
  long_enough x = true → typed_pair x = false →
  ∃ e, decodeTinyEntry tag x = Err e.
Proof.
  destruct x as [| | | | | | | [|a [|b l]] |]; try done.
  intros _ Hty. destruct a; cbn; eauto. destruct b; cbn; eauto. done.
Qed.

(** An entry that is no sequence of at least two values panics, unless it
    is a sequence of one value that fails the check of the timestamp. *)
Lemma decodeTinyEntry_short tag x :
  long_enough x = false →
  (∃ p, decodeTinyEntry tag x = Panic p)
  ∨ decodeTinyEntry tag x
    = Err (errors_New "Failed to decode timestamp field").
Proof.
  destruct x as [| | | | | | | [|a [|b l]] |]; try done; cbn; eauto.
  intros _. destruct a; cbn; eauto.
Qed.

Lemma decodeTinyEntry_timestamp tag t rest :
  is_Uint64 t = false →
  decodeTinyEntry tag (Slice (t :: rest))
  = Err (errors_New "Failed to decode timestamp field").
Proof. by destruct t. Qed.

Lemma decodeTinyEntry_pair tag p :
  decodeTinyEntry tag (pair_value p) = Ok (pair_record tag p).
Proof. reflexivity. Qed.

(** ** All entries *)

Lemma decodeTinyList_length tag entries rs :
  decodeTinyList tag entries = Ok rs → length rs = length entries.
Proof.
  revert rs. induction entries as [|x entries IH]; intros rs; cbn.
  - by intros [= <-].
  - destruct (decodeTinyEntry tag x) as [r | |]; [| done..].
    cbn [mbind outcome_bind].
    destruct (decodeTinyList tag entries) as [rs' | |]; [| done..].
    intros [= <-]. cbn. f_equal. by apply IH.
Qed.

Lemma decodeTinyList_typed tag entries :
  forallb typed_pair entries = true →
  ∃ rs, decodeTinyList tag entries = Ok rs.
Proof.
  induction entries as [|x entries IH]; cbn; [eauto |].
  intros [Hx Hrest]%andb_true_iff.
  destruct (decodeTinyEntry_typed tag x Hx) as [r ->].
  destruct (IH Hrest) as [rs ->]. eauto.
Qed.

Lemma decodeTinyList_ill_typed tag entries :
  forallb long_enough entries = true → forallb typed_pair entries = false →
  ∃ e, decodeTinyList tag entries = Err e.
Proof.
  induction entries as [|x entries IH]; cbn; [done |].
  intros [Hx Hrest]%andb_true_iff Hty.
  destruct (typed_pair x) eqn:Htx.
  - destruct (decodeTinyEntry_typed tag x Htx) as [r ->].
    destruct (IH Hrest Hty) as [e ->]. eauto.
  - destruct (decodeTinyEntry_ill_typed tag x Hx Htx) as [e ->]. eauto.
Qed.

Lemma decodeTinyList_pairs tag pairs :
  decodeTinyList tag (pair_value <$> pairs) = Ok (pair_record tag <$> pairs).
Proof.
  induction pairs as [|p pairs IH]; [done |].
  cbn [fmap list_fmap decodeTinyList].
  rewrite decodeTinyEntry_pair. cbn [mbind outcome_bind].
  change (list_fmap _ _ pair_value pairs) with (pair_value <$> pairs).
  by rewrite IH.
Qed.

(** A pair with a timestamp that is no [uint64], after entries that are
    long enough, ends the loop with an error. *)
Lemma decodeTinyList_bad_timestamp tag pre t rest post :
  forallb long_enough pre = true → is_Uint64 t = false →
  ∃ e, decodeTinyList tag (pre ++ Slice (t :: rest) :: post) = Err e.
Proof.
  intros Hpre Ht. induction pre as [|x pre IH]; cbn [app decodeTinyList].
  - rewrite decodeTinyEntry_timestamp by done. eauto.
  - cbn in Hpre. apply andb_true_iff in Hpre as [Hx Hpre].
    destruct (typed_pair x) eqn:Htx.
    + destruct (decodeTinyEntry_typed tag x Htx) as [r ->].
      destruct (IH Hpre) as [e ->]. eauto.
    + destruct (decodeTinyEntry_ill_typed tag x Hx Htx) as [e ->]. eauto.
Qed.

(** ** The counter *)

Lemma wrap_int64_id z : (- 2 ^ 63 ≤ z < 2 ^ 63)%Z → wrap_int64 z = z.
Proof. intros Hz. unfold wrap_int64. rewrite Z.mod_small; lia. Qed.

Lemma produced_nonneg r : (0 ≤ produced r)%Z.
Proof. destruct r; cbn; lia. Qed.

Lemma total_produced_cons r rs :
  total_produced (r :: rs) = (produced r + total_produced rs)%Z.
Proof. reflexivity. Qed.

Lemma total_produced_nonneg rs : (0 ≤ total_produced rs)%Z.
Proof.
  induction rs as [|r rs IH]; [done |].
  rewrite total_produced_cons. pose proof (produced_nonneg r). lia.
Qed.

Section decoder_facts.

Variable DecodeBytes : list byte → error + list value.
Variable uint64_unrepresentable : spec_float → Z.

#[local] Abbreviation decodeRetval :=
  (decodeRetval DecodeBytes uint64_unrepresentable).
#[local] Abbreviation decodeEntries :=
  (decodeEntries DecodeBytes uint64_unrepresentable).
#[local] Abbreviation decodeCalls :=
  (decodeCalls DecodeBytes uint64_unrepresentable).

(** A call adds to the counter what it produced, and a call that fails adds
    nothing. *)
Lemma decodeEntries_entries Decode input :
  entries (decodeEntries Decode input).2
  = match (decodeEntries Decode input).1 with
    | Ok retval =>
        atomic_AddInt64 (entries input) (Z.of_nat (length retval))
    | _ => entries input
    end.
Proof. unfold decodeEntries. by destruct (decodeRetval Decode). Qed.

Lemma decodeEntries_failure Decode input e :
  (decodeEntries Decode input).1 = Err e →
  (decodeEntries Decode input).2 = input.
Proof. unfold decodeEntries. by destruct (decodeRetval Decode). Qed.

Lemma decodeRetval_forward tag es third :
  decodeRetval (inr (mkFrame (Bytes tag) (Slice es) third))
  = decodeTinyList tag es.
Proof. cbn. apply decodeTinyEntries_list. Qed.

Lemma decodeRetval_packed tag packed third :
  decodeRetval (inr (mkFrame (Bytes tag) (Bytes packed) third))
  = match DecodeBytes packed with
    | inl err => Err err
    | inr es => decodeTinyList tag es
    end.
Proof.
  cbn. destruct (DecodeBytes packed); [done |]. apply decodeTinyEntries_list.
Qed.

(** The floating-point case of the switch: one record, with the data as it
    was decoded. *)
Lemma decodeRetval_float tag f data :
  decodeRetval (inr (mkFrame (Bytes tag) (Float64 f) (Map data)))
  = Ok [ {| Tag := string_of_bytes tag;
            Timestamp := uint64_of_float64 uint64_unrepresentable f;
            Data := data |} ].
Proof. reflexivity. Qed.

Lemma decodeRetval_uint tag ts data :
  decodeRetval (inr (mkFrame (Bytes tag) (Uint64 ts) (Map data)))
  = Ok [ {| Tag := string_of_bytes tag; Timestamp := ts;
            Data := coerceInPlace data |} ].
Proof. reflexivity. Qed.

(** C1, amended: for a frame whose second element is a sequence of
    sequences of at least two values each, [decodeEntries] returns an error
    value, and leaves the counter as it was, exactly when some element does
    not start with an unsigned integer and a mapping; otherwise it returns
    one record per element.  Values after the second are not looked at. *)
Theorem decodeEntries_forward_outcome tag es third input :
  forallb long_enough es = true →
  if forallb typed_pair es
  then ∃ retval,
      decodeEntries (inr (mkFrame (Bytes tag) (Slice es) third)) input
      = (Ok retval,
         {| entries := atomic_AddInt64 (entries input)
                         (Z.of_nat (length es)) |})
      ∧ length retval = length es
  else ∃ e,
      decodeEntries (inr (mkFrame (Bytes tag) (Slice es) third)) input
      = (Err e, input).
Proof.
  intros Hlong. unfold decodeEntries. rewrite decodeRetval_forward.
  destruct (forallb typed_pair es) eqn:Hty.
  - destruct (decodeTinyList_typed tag es Hty) as [rs Hrs]. rewrite Hrs.
    apply decodeTinyList_length in Hrs. exists rs. by rewrite Hrs.
  - destruct (decodeTinyList_ill_typed tag es Hlong Hty) as [e ->]. eauto.
Qed.

(** C5: when the inner decoder reads the byte-sequence of a PackedForward
    frame as the sequence [pairs], [decodeEntries] gives on that frame what
    it gives on the Forward frame that carries [pairs] inline under the same
    tag: the same records or the same failure, and the same counter. *)
Theorem decodeEntries_packed_as_forward tag packed pairs third third' input :
  DecodeBytes packed = inr pairs →
  decodeEntries (inr (mkFrame (Bytes tag) (Bytes packed) third)) input
  = decodeEntries (inr (mkFrame (Bytes tag) (Slice pairs) third')) input.
Proof.
  intros Hdec. unfold decodeEntries.
  by rewrite decodeRetval_packed, decodeRetval_forward, Hdec.
Qed.

(** C6: a Forward frame with the N pairs [pairs] decodes to exactly N
    records, the record of each pair at the position of the pair, each with
    the tag of the frame. *)
Theorem decodeEntries_forward_pairs tag pairs third input :
  (decodeEntries
     (inr (mkFrame (Bytes tag) (Slice (pair_value <$> pairs)) third)) input).1
  = Ok (pair_record tag <$> pairs)
  ∧ length (pair_record tag <$> pairs) = length pairs
  ∧ Forall (λ r, Tag r = string_of_bytes tag) (pair_record tag <$> pairs).
Proof.
  split; [| split].
  - unfold decodeEntries.
    by rewrite decodeRetval_forward, decodeTinyList_pairs.
  - apply length_fmap.
  - apply Forall_fmap, Forall_forall. by intros p _.
Qed.

Lemma decodeCalls_cons Decode calls input :
  decodeCalls (Decode :: calls) input
  = match (decodeEntries Decode input).1 with
    | Panic p => ([Panic p], (decodeEntries Decode input).2)
    | r => (r :: (decodeCalls calls (decodeEntries Decode input).2).1,
            (decodeCalls calls (decodeEntries Decode input).2).2)
    end.
Proof.
  cbn [decodeCalls].
  destruct (decodeEntries Decode input) as [[rs | e | p] input'];
    cbn [fst snd]; try done;
    by destruct (decodeCalls calls input').
Qed.

(** C7: a run of calls of [decodeEntries] that starts with the counter at a
    value that is not negative, and that stays below [2 ^ 63], ends with the
    counter at the first value plus the number of records of the successful
    calls (a failing call counts for nothing), and so not below the first
    value.  A single call is the run of one call. *)
Theorem decodeCalls_counter calls input :
  (0 ≤ entries input)%Z →
  (entries input + total_produced (decodeCalls calls input).1 < 2 ^ 63)%Z →
  entries (decodeCalls calls input).2
  = (entries input + total_produced (decodeCalls calls input).1)%Z
  ∧ (entries input ≤ entries (decodeCalls calls input).2)%Z.
Proof.
  revert input. induction calls as [|Decode calls IH]; intros input Hpos Hlt.
  - cbn. lia.
  - rewrite decodeCalls_cons in *.
    pose proof (decodeEntries_entries Decode input) as Hstep.
    pose proof (total_produced_nonneg
                  (decodeCalls calls (decodeEntries Decode input).2).1) as Hnn.
    destruct (decodeEntries Decode input).1 as [retval | e | p];
      cbn [fst snd] in *; rewrite ?total_produced_cons in *;
      cbn [produced] in *.
    + unfold atomic_AddInt64 in Hstep. rewrite wrap_int64_id in Hstep by lia.
      destruct (IH (decodeEntries Decode input).2) as [Heq Hle]; lia.
    + destruct (IH (decodeEntries Decode input).2) as [Heq Hle]; lia.
    + change (total_produced []) with 0%Z in *. lia.
Qed.

(** C10: in a Forward frame, and in a PackedForward frame that the inner
    decoder reads as the same sequence, a pair whose timestamp is a float,
    or any value other than a [uint64], after entries of at least two values
    each, makes [decodeEntries] return an error and leave the counter as it
    was; a float as the second element of the frame itself is converted
    and the frame decodes to one record. *)
Theorem decodeEntries_pair_timestamp tag pre t rest post third input :
  forallb long_enough pre = true →
  is_Uint64 t = false →
  (∃ e, decodeEntries
          (inr (mkFrame (Bytes tag) (Slice (pre ++ Slice (t :: rest) :: post))
                  third)) input
        = (Err e, input))
  ∧ (∀ packed,
       DecodeBytes packed = inr (pre ++ Slice (t :: rest) :: post) →
       ∃ e,
         decodeEntries (inr (mkFrame (Bytes tag) (Bytes packed) third)) input
         = (Err e, input))
  ∧ (∀ f data,
       (decodeEntries (inr (mkFrame (Bytes tag) (Float64 f) (Map data))) input).1
       = Ok [ {| Tag := string_of_bytes tag;
                 Timestamp := uint64_of_float64 uint64_unrepresentable f;
                 Data := data |} ]).
Proof.
  intros Hpre Ht.
  destruct (decodeTinyList_bad_timestamp tag pre t rest post Hpre Ht)
    as [e He].
  split; [| split].
  - exists e. unfold decodeEntries. by rewrite decodeRetval_forward, He.
  - intros packed Hdec. exists e. unfold decodeEntries.
    by rewrite decodeRetval_packed, Hdec, He.
  - intros f data. unfold decodeEntries. by rewrite decodeRetval_float.
Qed.

End decoder_facts.

(** ** The decoder on concrete frames *)

Example msgpack_sample_packed :
  msgpack_DecodeBytes sample_packed = inr sample_pairs.
Proof. vm_compute. reflexivity. Qed.

Example msgpack_float_packed :
  msgpack_DecodeBytes float_packed = inr float_pairs.
Proof. vm_compute. reflexivity. Qed.

(** An element that is no sequence fails the unchecked type assertion of
    line 61, and a sequence of one unsigned integer the index of line 66:
    the call panics. *)
Example decodeEntries_panics_on_scalar_entry :
  decodeEntries msgpack_DecodeBytes any_uint64
    (inr (mkFrame (Bytes sample_tag) (Slice [Uint64 5]) Nil))
    (mkForwardInput 0)
  = (Panic interface_conversion, mkForwardInput 0).
Proof. reflexivity. Qed.

Example decodeEntries_panics_on_short_entry :
  decodeEntries msgpack_DecodeBytes any_uint64
    (inr (mkFrame (Bytes sample_tag) (Slice [Slice [Uint64 5]]) Nil))
    (mkForwardInput 0)
  = (Panic index_out_of_range, mkForwardInput 0).
Proof. reflexivity. Qed.

Example decodeEntries_float_packed :
  decodeEntries msgpack_DecodeBytes any_uint64
    (inr (mkFrame (Bytes sample_tag) (Bytes float_packed) Nil))
    (mkForwardInput 0)
  = (Err (errors_New "Failed to decode timestamp field"), mkForwardInput 0).
Proof. vm_compute. reflexivity. Qed.

(** C1, as stated, fails: the only element of the sequence has three
    values, so it is no 2-element pair, and [decodeEntries] returns a record
    for it and no error. *)
Lemma decodeEntries_accepts_long_entry :
  forallb exact_pair [long_entry] = false
  ∧ decodeEntries msgpack_DecodeBytes any_uint64
      (inr (mkFrame (Bytes sample_tag) (Slice [long_entry]) Nil))
      (mkForwardInput 0)
    = (Ok [ {| Tag := "app"; Timestamp := 1; Data := ∅ |} ],
       mkForwardInput 1).
Proof. split; reflexivity. Qed.

(** The theorem on the Forward frame of a long entry, a pair and a pair
    with a float timestamp: an error, and the counter stays at 7. *)
Lemma decodeEntries_forward_outcome_witness :
  forallb long_enough (long_entry :: float_pairs) = true
  ∧ ∃ e,
      decodeEntries msgpack_DecodeBytes any_uint64
        (inr (mkFrame (Bytes sample_tag) (Slice (long_entry :: float_pairs))
                Nil))
        (mkForwardInput 7)
      = (Err e, mkForwardInput 7).
Proof.
  split; [reflexivity |].
  exact (decodeEntries_forward_outcome msgpack_DecodeBytes any_uint64
           sample_tag (long_entry :: float_pairs) Nil (mkForwardInput 7)
           eq_refl).
Defined.

(** C3, where the code departs from it: the frame
    [["app", 1.5, {"k": <bytes "v">}]] decodes to one record with timestamp
    1 whose data still holds the byte-sequence, while the frame with the
    unsigned integer 1 in place of 1.5 decodes to the same record with the
    data normalized. *)
Theorem decodeEntries_float_frame_not_normalized
    (DecodeBytes : list byte → error + list value)
    (uint64_unrepresentable : spec_float → Z) (input : ForwardInput) :
  decodeEntries DecodeBytes uint64_unrepresentable
    (inr (mkFrame (Bytes sample_tag) (Float64 one_and_a_half)
            (Map sample_data))) input
  = (Ok [ {| Tag := "app"; Timestamp := 1;
             Data := {[ "k" := Bytes ["v"%byte] ]} |} ],
     {| entries := atomic_AddInt64 (entries input) 1 |})
  ∧ decodeEntries DecodeBytes uint64_unrepresentable
      (inr (mkFrame (Bytes sample_tag) (Uint64 1) (Map sample_data))) input
    = (Ok [ {| Tag := "app"; Timestamp := 1;
               Data := {[ "k" := Str "v" ]} |} ],
       {| entries := atomic_AddInt64 (entries input) 1 |}).
Proof. split; reflexivity. Qed.

(** The theorem on the sample pairs and their MessagePack encoding. *)
Lemma decodeEntries_packed_as_forward_witness :
  msgpack_DecodeBytes sample_packed = inr sample_pairs
  ∧ decodeEntries msgpack_DecodeBytes any_uint64
      (inr (mkFrame (Bytes sample_tag) (Bytes sample_packed) Nil))
      (mkForwardInput 0)
    = decodeEntries msgpack_DecodeBytes any_uint64
        (inr (mkFrame (Bytes sample_tag) (Slice sample_pairs) Nil))
        (mkForwardInput 0).
Proof.
  split; [vm_compute; reflexivity |].
  apply decodeEntries_packed_as_forward. vm_compute. reflexivity.
Defined.

Example decodeCalls_sample :
  decodeCalls msgpack_DecodeBytes any_uint64 sample_calls (mkForwardInput 0)
  = ([Ok [ {| Tag := "app"; Timestamp := 1000;
              Data := {[ "k" := Str "v" ]} |} ];
      Err (codec_error "unexpected EOF");
      Ok [ {| Tag := "app"; Timestamp := 1000;
              Data := {[ "k" := Str "v" ]} |};
           {| Tag := "app"; Timestamp := 1001; Data := ∅ |} ]],
     mkForwardInput 3).
Proof. vm_compute. reflexivity. Qed.

(** The theorem on the three sample calls, from a counter at 0. *)
Lemma decodeCalls_counter_witness :
  (0 ≤ entries (mkForwardInput 0))%Z
  ∧ (entries (mkForwardInput 0)
     + total_produced
         (decodeCalls msgpack_DecodeBytes any_uint64 sample_calls
            (mkForwardInput 0)).1 < 2 ^ 63)%Z
  ∧ entries
      (decodeCalls msgpack_DecodeBytes any_uint64 sample_calls
         (mkForwardInput 0)).2
    = (entries (mkForwardInput 0)
       + total_produced
           (decodeCalls msgpack_DecodeBytes any_uint64 sample_calls
              (mkForwardInput 0)).1)%Z
  ∧ (entries (mkForwardInput 0)
     ≤ entries
         (decodeCalls msgpack_DecodeBytes any_uint64 sample_calls
            (mkForwardInput 0)).2)%Z.
Proof.
  split; [by vm_compute |]. split; [by vm_compute |].
  apply decodeCalls_counter; by vm_compute.
Defined.

(** The theorem on a pair with the timestamp 1.5 after a well-formed
    pair. *)
Lemma decodeEntries_pair_timestamp_witness :
  forallb long_enough [Slice [Uint64 1000; Map ∅]] = true
  ∧ is_Uint64 (Float64 one_and_a_half) = false
  ∧ (∃ e, decodeEntries msgpack_DecodeBytes any_uint64
            (inr (mkFrame (Bytes sample_tag) (Slice float_pairs) Nil))
            (mkForwardInput 0)
          = (Err e, mkForwardInput 0))
  ∧ (∀ packed,
       msgpack_DecodeBytes packed = inr float_pairs →
       ∃ e, decodeEntries msgpack_DecodeBytes any_uint64
              (inr (mkFrame (Bytes sample_tag) (Bytes packed) Nil))
              (mkForwardInput 0)
            = (Err e, mkForwardInput 0))
  ∧ (∀ f data,
       (decodeEntries msgpack_DecodeBytes any_uint64
          (inr (mkFrame (Bytes sample_tag) (Float64 f) (Map data)))
          (mkForwardInput 0)).1
       = Ok [ {| Tag := string_of_bytes sample_tag;
                 Timestamp := uint64_of_float64 any_uint64 f;
                 Data := data |} ]).
Proof.
  split; [reflexivity |]. split; [reflexivity |].
  exact (decodeEntries_pair_timestamp msgpack_DecodeBytes any_uint64
           sample_tag [Slice [Uint64 1000; Map ∅]] (Float64 one_and_a_half)
           [Map ∅] [] Nil (mkForwardInput 0) eq_refl eq_refl).
Defined.

(** * Properties of the load generator *)

Module IkbFacts.
Import Ikb.

Lemma wrap_int_id z : (- 2 ^ 63 ≤ z < 2 ^ 63)%Z → wrap_int z = z.
Proof. apply wrap_int64_id. Qed.

(** ** The partition of the attempts *)

Lemma total_attempts_loads q r m n :
  (0 ≤ n)%Z →
  total_attempts
    ((λ i, (i, (q + if (i <? r)%Z then 1 else 0)%Z)) <$> seqZ m n)
  = (n * q + Z.max 0 (Z.min (m + n) r - m))%Z.
Proof.
  intros Hn. revert m. pattern n. apply natlike_ind; [| | exact Hn].
  - intros m. rewrite seqZ_nil by lia. cbn. lia.
  - intros k Hk IH m. rewrite seqZ_cons by lia.
    replace (Z.pred (Z.succ k)) with k by lia.
    cbn [fmap list_fmap total_attempts foldr snd].
    change (foldr _ 0%Z (list_fmap _ _ ?f ?l)) with (total_attempts (f <$> l)).
    rewrite IH. destruct (Z.ltb_spec m r); lia.
Qed.

Lemma Run_goroutines_spec params :
  (0 ≤ NumberOfRecordsToSend params < 2 ^ 63)%Z →
  (0 < NumberOfRecordsSentAtOnce params)%Z →
  (0 < Concurrency params)%Z →
  Run_goroutines params
  = Some ((λ i, (i, spec_load params i)) <$> seqZ 0 (Concurrency params)).
Proof.
  intros Htotal Hbatch Hconc.
  unfold Run_goroutines, spec_load, spec_attempts, int_div, int_rem.
  destruct params as [total batch conc retries]; cbn [NumberOfRecordsToSend
    NumberOfRecordsSentAtOnce Concurrency MaxRetryCount] in *.
  assert (0 ≤ total / batch ≤ total)%Z as Ha.
  { split; [apply Z.div_pos; lia |].
    apply Z.div_le_upper_bound; [lia | nia]. }
  rewrite (decide_False (P := batch = 0%Z)) by lia.
  cbn [mbind option_bind].
  rewrite !(decide_False (P := conc = 0%Z)) by lia.
  cbn [mbind option_bind].
  rewrite (Z.quot_div_nonneg total batch) by lia.
  rewrite (wrap_int_id (total / batch)) by lia.
  rewrite Z.quot_div_nonneg, Z.rem_mod_nonneg by lia.
  set (a := (total / batch)%Z) in *.
  pose proof (Z.div_mod a conc ltac:(lia)) as Hdm.
  pose proof (Z.mod_pos_bound a conc Hconc) as Hmod.
  assert (0 ≤ a / conc)%Z as Hq by (apply Z.div_pos; lia).
  rewrite (wrap_int_id (a / conc)) by nia.
  f_equal. apply list_fmap_ext. intros k i [-> _]%lookup_seqZ. f_equal.
  apply wrap_int_id. destruct (Z.ltb_spec (0 + Z.of_nat k) (a mod conc)); nia.
Qed.

(** C8: for a work item with a count that is not negative, a positive batch
    size and a positive concurrency, [Run] starts the workers
    [0 .. concurrency - 1], worker [i] with
    [attempts / concurrency] attempts plus one if
    [i < attempts mod concurrency], and the loads add up to [attempts]. *)
Theorem Run_goroutines_loads params :
  (0 ≤ NumberOfRecordsToSend params < 2 ^ 63)%Z →
  (0 < NumberOfRecordsSentAtOnce params)%Z →
  (0 < Concurrency params)%Z →
  ∃ gs,
    Run_goroutines params = Some gs
    ∧ gs = (λ i, (i, spec_load params i)) <$> seqZ 0 (Concurrency params)
    ∧ total_attempts gs = spec_attempts params.
Proof.
  intros Htotal Hbatch Hconc. eexists. split; [| split; [reflexivity |]].
  { by apply Run_goroutines_spec. }
  unfold spec_load. rewrite total_attempts_loads by lia.
  pose proof (Z.div_mod (spec_attempts params) (Concurrency params)
                ltac:(lia)) as Hdm.
  pose proof (Z.mod_pos_bound (spec_attempts params) (Concurrency params)
                Hconc) as Hmod.
  lia.
Qed.

(** The scenario of the specification: loads 4, 3, 3. *)
Example Run_goroutines_sample :
  Run_goroutines sample_params = Some [(0, 4); (1, 3); (2, 3)]%Z.
Proof. reflexivity. Qed.

(** With a concurrency of zero the division of line 73 panics. *)
Example Run_goroutines_no_workers :
  Run_goroutines {| NumberOfRecordsToSend := 100;
                    NumberOfRecordsSentAtOnce := 10;
                    Concurrency := 0; MaxRetryCount := 5 |} = None.
Proof. reflexivity. Qed.

(** The theorem on the work item of the scenario. *)
Lemma Run_goroutines_loads_witness :
  (0 ≤ NumberOfRecordsToSend sample_params < 2 ^ 63)%Z
  ∧ (0 < NumberOfRecordsSentAtOnce sample_params)%Z
  ∧ (0 < Concurrency sample_params)%Z
  ∧ ∃ gs,
      Run_goroutines sample_params = Some gs
      ∧ gs = (λ i, (i, spec_load sample_params i))
             <$> seqZ 0 (Concurrency sample_params)
      ∧ total_attempts gs = spec_attempts sample_params.
Proof.
  split; [by vm_compute |]. split; [by vm_compute |].
  split; [by vm_compute |].
  apply Run_goroutines_loads; by vm_compute.
Defined.

(** ** The retry budget *)

Lemma exec_app s1 s2 p : exec (s1 ++ s2) p = exec s1 p ≫= exec s2.
Proof.
  revert p. induction s1 as [|[j ev] s1 IH]; intros p; [done |].
  cbn [app exec]. destruct (process_step j ev p) as [p' |]; [| done].
  apply IH.
Qed.

(** Once the process has exited, no schedule has a step to run. *)
Lemma exec_exited schedule status p :
  exec schedule (exited status) = Some p →
  schedule = [] ∧ p = exited status.
Proof. destruct schedule as [|[j ev] ?]; cbn; [by intros [= <-] | done]. Qed.

Lemma completed_exited j status : ¬ completed j (exited status).
Proof. by intros (ws & w & ? & _). Qed.

(** A failed dial with budget left costs the worker one retry and touches
    no other worker. *)
Lemma dial_error_retry ws j w :
  ws !! j = Some w → loc w = at_dial → (0 ≤ wrap_int (retryCount w - 1))%Z →
  process_step j dial_error (running ws)
  = Some (running (<[j := {| id := id w; attempts := attempts w;
                             retryCount := wrap_int (retryCount w - 1);
                             loc := at_dial |}]> ws)).
Proof.
  intros Hj Hloc Hbudget. cbn. rewrite Hj. cbn. unfold worker_step.
  rewrite Hloc. destruct (Z.ltb_spec (wrap_int (retryCount w - 1)) 0); [lia |].
  done.
Qed.

(** A failed dial that takes the budget below zero reaches [log.Fatal]. *)
Lemma dial_error_fatal ws j w :
  ws !! j = Some w → loc w = at_dial → (wrap_int (retryCount w - 1) < 0)%Z →
  process_step j dial_error (running ws) = Some (exited 1).
Proof.
  intros Hj Hloc Hbudget. cbn. rewrite Hj. cbn. unfold worker_step.
  rewrite Hloc.
  destruct (Z.ltb_spec (wrap_int (retryCount w - 1)) 0); [done | lia].
Qed.

(** C4, amended: when the dial of a worker fails and its retry budget goes
    negative, [log.Fatal] ends the whole process with status 1: from then on
    no worker, sibling or not, takes a step. *)
Theorem retry_exhausted_exits_process ws j w :
  ws !! j = Some w → loc w = at_dial → (wrap_int (retryCount w - 1) < 0)%Z →
  process_step j dial_error (running ws) = Some (exited 1)
  ∧ ∀ k ev, process_step k ev (exited 1) = None.
Proof.
  intros Hj Hloc Hbudget. split; [by eapply dial_error_fatal | done].
Qed.

(** A worker that dials with a budget of [n] retries and fails [n + 1] times
    in a row ends the process. *)
Lemma dial_failures_exit ws j w :
  ws !! j = Some w → loc w = at_dial → (0 ≤ retryCount w < 2 ^ 63)%Z →
  exec (replicate (S (Z.to_nat (retryCount w))) (j, dial_error)) (running ws)
  = Some (exited 1).
Proof.
  remember (Z.to_nat (retryCount w)) as n eqn:Hn.
  revert ws w Hn. induction n as [|n IH]; intros ws w Hn Hj Hloc Hbudget.
  - cbn [replicate exec].
    rewrite (dial_error_fatal ws j w Hj Hloc); [done |].
    rewrite wrap_int_id by lia. lia.
  - cbn [replicate exec]. rewrite (dial_error_retry ws j w Hj Hloc).
    2:{ rewrite wrap_int_id by lia. lia. }
    cbn [mbind option_bind].
    apply (IH _ {| id := id w; attempts := attempts w;
                   retryCount := wrap_int (retryCount w - 1);
                   loc := at_dial |}); cbn.
    + rewrite wrap_int_id by lia. lia.
    + apply list_lookup_insert_eq. by eapply lookup_lt_Some.
    + done.
    + rewrite wrap_int_id by lia. lia.
Qed.

(** The process of two workers with one attempt each and no retry. *)
Example start_two_workers :
  start {| NumberOfRecordsToSend := 2; NumberOfRecordsSentAtOnce := 1;
           Concurrency := 2; MaxRetryCount := 0 |}
  = Some (running [ {| id := 0; attempts := 1; retryCount := 0;
                       loc := at_dial |};
                    {| id := 1; attempts := 1; retryCount := 0;
                       loc := at_dial |} ]).
Proof. reflexivity. Qed.

(** C4, as stated, fails: of two workers with no retry, the first fails its
    dial; the process exits with status 1, and on no schedule that goes on
    from there does the second worker complete. *)
Lemma retry_exhausted_stops_sibling :
  exec [(0, dial_error)]
    (running [ {| id := 0; attempts := 1; retryCount := 0; loc := at_dial |};
               {| id := 1; attempts := 1; retryCount := 0; loc := at_dial |} ])
  = Some (exited 1)
  ∧ ∀ schedule p,
      exec ((0, dial_error) :: schedule)
        (running [ {| id := 0; attempts := 1; retryCount := 0;
                      loc := at_dial |};
                   {| id := 1; attempts := 1; retryCount := 0;
                      loc := at_dial |} ])
      = Some p →
      ¬ completed 1 p.
Proof.
  split; [reflexivity |]. intros schedule p Hexec.
  change (exec schedule (exited 1) = Some p) in Hexec.
  apply exec_exited in Hexec as [_ ->]. apply completed_exited.
Qed.

(** Without the failure the second worker does complete. *)
Example sibling_completes_without_failure :
  ∃ p, exec [(1, dial_ok); (1, send_ok)]
         (running [ {| id := 0; attempts := 1; retryCount := 0;
                       loc := at_dial |};
                    {| id := 1; attempts := 1; retryCount := 0;
                       loc := at_dial |} ]) = Some p
       ∧ completed 1 p.
Proof. eexists. split; [reflexivity |]. do 2 eexists. by repeat split. Qed.

(** The theorem on the first of two workers with no retry. *)
Lemma retry_exhausted_exits_process_witness :
  [ {| id := 0; attempts := 1; retryCount := 0; loc := at_dial |};
    {| id := 1; attempts := 1; retryCount := 0; loc := at_dial |} ] !! 0
  = Some {| id := 0; attempts := 1; retryCount := 0; loc := at_dial |}
  ∧ loc {| id := 0; attempts := 1; retryCount := 0; loc := at_dial |} = at_dial
  ∧ (wrap_int (0 - 1) < 0)%Z
  ∧ process_step 0 dial_error
      (running [ {| id := 0; attempts := 1; retryCount := 0; loc := at_dial |};
                 {| id := 1; attempts := 1; retryCount := 0;
                    loc := at_dial |} ])
    = Some (exited 1)
  ∧ ∀ k ev, process_step k ev (exited 1) = None.
Proof.
  split; [reflexivity |]. split; [reflexivity |]. split; [by vm_compute |].
  apply (retry_exhausted_exits_process _ 0
           {| id := 0; attempts := 1; retryCount := 0; loc := at_dial |});
    [reflexivity | reflexivity | by vm_compute].
Defined.

(** ** More on [main] and [Run] *)

Lemma main_checks_run count multi conc params :
  main_checks count multi conc = Some (run params) →
  multi ≠ 0%Z
  ∧ Z.rem count multi = 0%Z
  ∧ (conc ≤ wrap_int (Z.quot count multi))%Z
  ∧ params = {| NumberOfRecordsToSend := count;
                NumberOfRecordsSentAtOnce := multi;
                Concurrency := conc; MaxRetryCount := 5 |}.
Proof.
  unfold main_checks, int_rem, int_div.
  destruct (decide (multi = 0%Z)); [done |]. cbn [mbind option_bind].
  destruct (decide (Z.rem count multi ≠ 0%Z)) as [| Hrem]; [done |].
  cbn [mbind option_bind].
  destruct (Z.ltb_spec (wrap_int (Z.quot count multi)) conc); [done |].
  intros [= <-]. repeat split; try done. by destruct (decide (Z.rem count multi = 0%Z)).
Qed.

(** X13: when [main] lets a work item through, with a count in the range of
    [int], a positive batch size and a positive concurrency, [Run] starts
    one worker per unit of concurrency, every worker has at least one
    attempt, and the attempts of all workers, at the batch size each, come
    to the count. *)
Theorem main_checks_then_Run count multi conc params :
  (- 2 ^ 63 ≤ count < 2 ^ 63)%Z → (0 < multi)%Z → (0 < conc)%Z →
  main_checks count multi conc = Some (run params) →
  ∃ gs,
    Run_goroutines params = Some gs
    ∧ length gs = Z.to_nat conc
    ∧ Forall (λ g, (1 ≤ g.2)%Z) gs
    ∧ (total_attempts gs * multi)%Z = count.
Proof.
  intros Hrange Hmulti Hconc (_ & Hrem & Hq & ->)%main_checks_run.
  assert (0 ≤ count)%Z as Hcount.
  { destruct (Z.le_gt_cases 0 count) as [| Hneg]; [done |].
    pose proof (Z.quot_opp_l count multi ltac:(lia)) as Hopp.
    pose proof (Z.quot_pos (- count) multi ltac:(lia) Hmulti) as Hpos.
    pose proof (Z.quot_le_upper_bound (- count) multi (- count) Hmulti
                  ltac:(nia)) as Hup.
    rewrite wrap_int_id in Hq by lia. lia. }
  rewrite Z.quot_div_nonneg, wrap_int_id in Hq; try lia.
  2:{ split; [pose proof (Z.div_pos count multi); lia |].
      pose proof (Z.div_le_upper_bound count multi count); nia. }
  rewrite Z.rem_mod_nonneg in Hrem by lia.
  eexists. split; [apply Run_goroutines_spec; cbn; lia |].
  unfold spec_load, spec_attempts. cbn [NumberOfRecordsToSend
    NumberOfRecordsSentAtOnce Concurrency].
  set (a := (count / multi)%Z) in *.
  pose proof (Z.div_mod a conc ltac:(lia)) as Hdm.
  pose proof (Z.mod_pos_bound a conc Hconc) as Hmod.
  assert (1 ≤ a / conc)%Z as Hload.
  { pose proof (Z.div_str_pos a conc). lia. }
  split; [by rewrite length_fmap, length_seqZ |]. split.
  - apply Forall_fmap, Forall_forall. intros i _. cbn.
    destruct (Z.ltb_spec i (a mod conc)); lia.
  - rewrite total_attempts_loads by lia.
    pose proof (Z.div_mod count multi ltac:(lia)) as Hcm.
    fold a in Hcm. nia.
Qed.

(** X14: a concurrency that is not positive passes the checks of [main]
    whenever the count is a multiple of the batch size and not negative;
    [Run] then panics on the division by a concurrency of zero, and starts
    no worker at all on a negative concurrency. *)
Theorem main_checks_concurrency_not_positive count multi conc :
  (0 ≤ count < 2 ^ 63)%Z → (0 < multi)%Z → Z.rem count multi = 0%Z →
  (conc ≤ 0)%Z →
  main_checks count multi conc
  = Some (run {| NumberOfRecordsToSend := count;
                 NumberOfRecordsSentAtOnce := multi;
                 Concurrency := conc; MaxRetryCount := 5 |})
  ∧ Run_goroutines {| NumberOfRecordsToSend := count;
                      NumberOfRecordsSentAtOnce := multi;
                      Concurrency := conc; MaxRetryCount := 5 |}
    = if decide (conc = 0%Z) then None else Some [].
Proof.
  intros Hcount Hmulti Hrem Hconc.
  assert (0 ≤ Z.quot count multi ≤ count)%Z as Hq.
  { rewrite Z.quot_div_nonneg by lia.
    split; [pose proof (Z.div_pos count multi); lia |].
    pose proof (Z.div_le_upper_bound count multi count); nia. }
  split.
  - unfold main_checks, int_rem, int_div.
    rewrite !(decide_False (P := multi = 0%Z)) by lia.
    cbn [mbind option_bind]. rewrite Hrem.
    rewrite (decide_False (P := 0%Z ≠ 0%Z)) by (intros H; by apply H).
    rewrite wrap_int_id by lia.
    by destruct (Z.ltb_spec (Z.quot count multi) conc); [lia |].
  - unfold Run_goroutines, int_rem, int_div. cbn.
    rewrite !(decide_False (P := multi = 0%Z)) by lia.
    cbn [mbind option_bind].
    destruct (decide (conc = 0%Z)) as [-> | Hne]; [done |].
    cbn [mbind option_bind]. by rewrite seqZ_nil by lia.
Qed.

(** The theorem on [-concurrent 0] with the count and batch size of the
    scenario. *)
Lemma main_checks_concurrency_not_positive_witness :
  (0 ≤ 100 < 2 ^ 63)%Z ∧ (0 < 10)%Z ∧ Z.rem 100 10 = 0%Z ∧ (0 ≤ 0)%Z
  ∧ main_checks 100 10 0
    = Some (run {| NumberOfRecordsToSend := 100;
                   NumberOfRecordsSentAtOnce := 10;
                   Concurrency := 0; MaxRetryCount := 5 |})
  ∧ Run_goroutines {| NumberOfRecordsToSend := 100;
                      NumberOfRecordsSentAtOnce := 10;
                      Concurrency := 0; MaxRetryCount := 5 |}
    = if decide (0 = 0)%Z then None else Some [].
Proof.
  split; [by vm_compute |]. split; [by vm_compute |].
  split; [reflexivity |]. split; [by vm_compute |].
  apply main_checks_concurrency_not_positive; by vm_compute.
Defined.

(** The scenario of the specification passes the checks. *)
Lemma main_checks_then_Run_witness :
  (- 2 ^ 63 ≤ 100 < 2 ^ 63)%Z ∧ (0 < 10)%Z ∧ (0 < 3)%Z
  ∧ main_checks 100 10 3 = Some (run sample_params)
  ∧ ∃ gs,
      Run_goroutines sample_params = Some gs
      ∧ length gs = Z.to_nat 3
      ∧ Forall (λ g, (1 ≤ g.2)%Z) gs
      ∧ (total_attempts gs * 10)%Z = 100%Z.
Proof.
  split; [by vm_compute |]. split; [by vm_compute |].
  split; [by vm_compute |]. split; [reflexivity |].
  apply (main_checks_then_Run 100 10 3 sample_params);
    by vm_compute.
Defined.

(** ** More on the workers *)


Lemma dial_failures_survive j k ws w :
  ws !! j = Some w → loc w = at_dial →
  (Z.of_nat k ≤ retryCount w < 2 ^ 63)%Z →
  exec (replicate k (j, dial_error)) (running ws)
  = Some (running (<[j := {| id := id w; attempts := attempts w;
                             retryCount := retryCount w - Z.of_nat k;
                             loc := at_dial |}]> ws)).
Proof.
  revert ws w. induction k as [|k IH]; intros ws w Hj Hloc Hbudget.
  - cbn [replicate exec]. rewrite list_insert_id; [done |].
    rewrite Hj. f_equal. destruct w; cbn in *. f_equal; [lia | done].
  - cbn [replicate exec]. rewrite (dial_error_retry ws j w Hj Hloc).
    2:{ rewrite wrap_int_id by lia. lia. }
    cbn [mbind option_bind]. rewrite wrap_int_id by lia.
    set (w1 := {| id := id w; attempts := attempts w;
                  retryCount := retryCount w - 1; loc := at_dial |}).
    rewrite (IH (<[j := w1]> ws) w1); cbn.
    + rewrite list_insert_insert_eq.
      by replace (retryCount w - 1 - Z.of_nat k)%Z
        with (retryCount w - Z.of_nat (S k))%Z by lia.
    + apply list_lookup_insert_eq. by eapply lookup_lt_Some.
    + done.
    + lia.
Qed.

(** X16: a worker that dials with a retry budget of [n], not negative,
    survives [n] failed dials in a row, each costing one retry and touching
    no other worker, and the next failed dial ends the process: [n + 1]
    dials in all. *)
Theorem retry_budget ws j w :
  ws !! j = Some w → loc w = at_dial → (0 ≤ retryCount w < 2 ^ 63)%Z →
  exec (replicate (Z.to_nat (retryCount w)) (j, dial_error)) (running ws)
  = Some (running (<[j := {| id := id w; attempts := attempts w;
                             retryCount := 0; loc := at_dial |}]> ws))
  ∧ exec (replicate (S (Z.to_nat (retryCount w))) (j, dial_error))
      (running ws)
    = Some (exited 1).
Proof.
  intros Hj Hloc Hbudget. split; [| by apply dial_failures_exit].
  rewrite (dial_failures_survive j _ ws w Hj Hloc) by lia.
  by rewrite Z2Nat.id, Z.sub_diag by lia.
Qed.

(** The theorem on the first sample worker, with the budget of 5 that
    [main] passes: five failed dials, and the sixth is fatal. *)
Lemma retry_budget_witness :
  sample_workers !! 0
  = Some {| id := 0; attempts := 2; retryCount := 5; loc := at_dial |}
  ∧ loc {| id := 0; attempts := 2; retryCount := 5; loc := at_dial |}
    = at_dial
  ∧ (0 ≤ 5 < 2 ^ 63)%Z
  ∧ exec (replicate (Z.to_nat 5) (0, dial_error)) (running sample_workers)
    = Some (running (<[0 := {| id := 0; attempts := 2; retryCount := 0;
                               loc := at_dial |}]> sample_workers))
  ∧ exec (replicate (S (Z.to_nat 5)) (0, dial_error))
      (running sample_workers)
    = Some (exited 1).
Proof.
  split; [reflexivity |]. split; [reflexivity |]. split; [by vm_compute |].
  apply (retry_budget sample_workers 0
           {| id := 0; attempts := 2; retryCount := 5; loc := at_dial |});
    [reflexivity | reflexivity | by vm_compute].
Defined.

Lemma process_step_id j ev ws w :
  ws !! j = Some w → worker_step ev w = Some (goes_on w) →
  process_step j ev (running ws) = Some (running ws).
Proof.
  intros Hj Hstep. cbn. rewrite Hj. cbn. rewrite Hstep. cbn.
  by rewrite list_insert_id.
Qed.

(** A send that fails temporarily is tried again in place. *)
Lemma send_temporary_stutters j t ws w i :
  ws !! j = Some w → loc w = at_send i →
  exec (replicate t (j, send_temporary)) (running ws) = Some (running ws).
Proof.
  intros Hj Hloc. induction t as [|t IH]; [done |].
  cbn [replicate exec]. rewrite (process_step_id j _ ws w Hj); [done |].
  unfold worker_step. by rewrite Hloc.
Qed.

Lemma attempts_run j temps ws w i :
  j < length ws → (0 ≤ i)%Z →
  (i + Z.of_nat (length temps) = attempts w)%Z → (attempts w < 2 ^ 63)%Z →
  exec (mjoin ((λ t, replicate t (j, send_temporary) ++ [(j, send_ok)])
                 <$> temps))
    (running (<[j := attempt_or_finish w i]> ws))
  = Some (running (<[j := move w finished]> ws)).
Proof.
  intros Hj. revert i.
  induction temps as [|t temps IH]; intros i Hi Hlen Hmax.
  - cbn in *. unfold attempt_or_finish.
    by destruct (Z.ltb_spec i (attempts w)); [lia |].
  - cbn [fmap list_fmap mjoin list_join length] in *.
    rewrite <- !app_assoc, exec_app.
    unfold attempt_or_finish at 1.
    destruct (Z.ltb_spec i (attempts w)); [| lia].
    rewrite (send_temporary_stutters j t _ (move w (at_send i)) i);
      [| by apply list_lookup_insert_eq | done].
    cbn [mbind option_bind app exec process_step].
    rewrite list_lookup_insert_eq by done.
    cbn [mbind option_bind worker_step move loc].
    rewrite list_insert_insert_eq, wrap_int_id by lia.
    change (attempt_or_finish (move w (at_send i)) (i + 1))
      with (attempt_or_finish w (i + 1)).
    apply IH; lia.
Qed.

(** X17: a worker whose dial succeeds and whose sends fail only temporarily
    makes exactly its assigned number of attempts, whatever the number of
    temporary failures before each one, and then reports completion; no
    other worker is touched. *)
Theorem good_run_completes j temps ws w :
  ws !! j = Some w → loc w = at_dial →
  attempts w = Z.of_nat (length temps) → (attempts w < 2 ^ 63)%Z →
  exec (good_run j temps) (running ws)
  = Some (running (<[j := move w finished]> ws)).
Proof.
  intros Hj Hloc Hlen Hmax. unfold good_run. cbn [exec process_step].
  rewrite Hj. cbn [mbind option_bind]. unfold worker_step at 1.
  rewrite Hloc. cbn [mbind option_bind].
  apply attempts_run; [by eapply lookup_lt_Some | lia..].
Qed.

(** The theorem on the first sample worker: three temporary failures
    before its first attempt, none before its second. *)
Lemma good_run_completes_witness :
  sample_workers !! 0
  = Some {| id := 0; attempts := 2; retryCount := 5; loc := at_dial |}
  ∧ loc {| id := 0; attempts := 2; retryCount := 5; loc := at_dial |}
    = at_dial
  ∧ 2%Z = Z.of_nat (length [3; 0])
  ∧ (2 < 2 ^ 63)%Z
  ∧ exec (good_run 0 [3; 0]) (running sample_workers)
    = Some (running
              (<[0 := move {| id := 0; attempts := 2; retryCount := 5;
                              loc := at_dial |} finished]> sample_workers)).
Proof.
  split; [reflexivity |]. split; [reflexivity |]. split; [reflexivity |].
  split; [by vm_compute |].
  apply (good_run_completes 0 [3; 0]); [reflexivity.. | by vm_compute].
Defined.


(** ** [Send] *)

Lemma fill_replicate {A} (r z : A) k m :
  foldl (λ records i, <[i := r]> records)
    (replicate k r ++ replicate m z) (seq k m)
  = replicate (k + m) r.
Proof.
  revert k. induction m as [|m IH]; intros k.
  - cbn. by rewrite app_nil_r, Nat.add_0_r.
  - cbn [seq foldl replicate].
    replace (<[k := r]> (replicate k r ++ z :: replicate m z))
      with (replicate (S k) r ++ replicate m z).
    2:{ rewrite insert_app_r_alt by (rewrite length_replicate; lia).
        rewrite length_replicate, Nat.sub_diag. cbn [insert list_insert].
        by rewrite replicate_S_end, <- app_assoc. }
    rewrite IH. f_equal. lia.
Qed.

Lemma Send_records_Some data n time_ :
  (0 ≤ n)%Z →
  Send_records data n time_
  = Some (replicate (Z.to_nat n)
            {| Timestamp := uint64_of_int64 time_; Data := data |}).
Proof.
  intros Hn. unfold Send_records.
  destruct (Z.ltb_spec n 0); [lia |]. f_equal.
  apply (fill_replicate _ _ 0).
Qed.

(** X18: [Send] panics exactly on a negative batch size; otherwise, in
    either mode, its messages carry as many records as the batch size, each
    with the time of the call as timestamp and the payload of the work item
    as data, every message under the tag of the work item: one message per
    record in simple mode, one message in all in bulk mode. *)
Theorem Send_messages_carried simple tag data n time_ :
  match Send_messages simple tag data n time_ with
  | None => (n < 0)%Z
  | Some ms =>
      (0 ≤ n)%Z
      ∧ mjoin (carried <$> ms)
        = replicate (Z.to_nat n)
            {| Timestamp := uint64_of_int64 time_; Data := data |}
      ∧ Forall (λ m, message_tag m = tag) ms
      ∧ length ms = if simple then Z.to_nat n else 1
  end.
Proof.
  unfold Send_messages. destruct (Z.le_gt_cases 0 n) as [Hn | Hn].
  - rewrite Send_records_Some by done. cbn [mbind option_bind].
    split; [done |]. destruct simple.
    + split; [| split].
      * induction (Z.to_nat n) as [|k IH]; [done |].
        cbn [replicate fmap list_fmap mjoin list_join carried app] in *.
        by f_equal.
      * apply Forall_fmap, Forall_forall. by intros r _.
      * by rewrite length_fmap, length_replicate.
    + split; [cbn; by rewrite app_nil_r |]. split; [| done].
      by repeat constructor.
  - unfold Send_records. by destruct (Z.ltb_spec n 0); [| lia].
Qed.

End IkbFacts.
(** * More on the normalizer *)

Lemma coerce_value_fixed x :
  coerce_value x = x ↔ has_bytes_in_maps x = false.
Proof.
  induction x as [| | | | | | | l _ | m IH] using value_ind; try done.
  rewrite coerce_value_Map, has_bytes_in_maps_Map. unfold coerceInPlace.
  split.
  - intros [= Heq] k y Hk. apply (IH k y Hk).
    apply (f_equal (λ m', m' !! k)) in Heq.
    rewrite lookup_fmap, Hk in Heq. by injection Heq.
  - intros Hclean. f_equal. apply map_eq. intros k.
    rewrite lookup_fmap. destruct (m !! k) as [y |] eqn:Hk; [| done].
    cbn. f_equal. apply (IH k y Hk), (Hclean k y Hk).
Qed.

(** X1: normalization returns a mapping as it was exactly when the mapping
    holds no byte-sequence behind mappings. *)
Theorem coerceInPlace_fixed_iff (data : gmap string value) :
  coerceInPlace data = data ↔ has_bytes_in_maps (Map data) = false.
Proof.
  rewrite <- (coerce_value_fixed (Map data)), coerce_value_Map.
  split; [by intros -> | by intros [= ->]].
Qed.


(** * More on the decoder *)

(** ** The entries of a Forward frame *)

Lemma decodeTinyEntry_Ok tag x r :
  decodeTinyEntry tag x = Ok r →
  ∃ ts data rest,
    x = Slice (Uint64 ts :: Map data :: rest)
    ∧ r = {| Tag := string_of_bytes tag; Timestamp := ts;
             Data := coerceInPlace data |}.
Proof.
  destruct x as [| | | | | | | [|a [|b l]] |]; try done.
  - destruct a; done.
  - destruct a; try done. destruct b; try done. intros [= <-]. eauto.
Qed.

Lemma decodeTinyEntry_Ok_typed tag x :
  (∃ r, decodeTinyEntry tag x = Ok r) ↔ typed_pair x = true.
Proof.
  split; [| apply decodeTinyEntry_typed].
  intros [r (ts & data & rest & -> & _)%decodeTinyEntry_Ok]. done.
Qed.

Lemma decodeTinyEntry_Panic tag x :
  (∃ p, decodeTinyEntry tag x = Panic p) ↔ crashes x = true.
Proof.
  destruct x as [| | | | | | | [|a [|b l]] |]; cbn;
    try (split; [done | eauto]).
  - destruct a; cbn; split; (done || eauto || by intros [? ?]).
  - destruct a; cbn; try (split; [by intros [? ?] | done]).
    destruct b; cbn; split; (done || by intros [? ?]).
Qed.

Lemma decodeTinyList_Forall2 tag es rs :
  decodeTinyList tag es = Ok rs
  ↔ Forall2 (λ x r, decodeTinyEntry tag x = Ok r) es rs.
Proof.
  revert rs. induction es as [|x es IH]; intros rs; cbn [decodeTinyList].
  - split; [intros [= <-]; constructor | by inversion 1].
  - destruct (decodeTinyEntry tag x) as [r | e | p] eqn:Hx;
      cbn [mbind outcome_bind].
    + destruct (decodeTinyList tag es) as [rs' | e | p] eqn:Hes;
        cbn [mbind outcome_bind].
      * split.
        -- intros [= <-]. constructor; [done | by apply IH].
        -- inversion 1 as [| ? r' ? rs'' Hr Hrest]; subst.
           rewrite Hx in Hr. injection Hr as <-.
           apply IH in Hrest. by injection Hrest as <-.
      * split; [done |]. inversion 1 as [| ? ? ? rs'' _ Hrest]; subst.
        by apply IH in Hrest.
      * split; [done |]. inversion 1 as [| ? ? ? rs'' _ Hrest]; subst.
        by apply IH in Hrest.
    + split; [done |]. inversion 1 as [| ? ? ? ? Hr _]; subst.
      by rewrite Hx in Hr.
    + split; [done |]. inversion 1 as [| ? ? ? ? Hr _]; subst.
      by rewrite Hx in Hr.
Qed.

(** X3: [decodeTinyEntries] succeeds with [retval] exactly when [retval]
    holds, position by position, the record of each entry: as many records
    as entries, in the order of the entries. *)
Theorem decodeTinyEntries_Ok_positions tag entries retval :
  decodeTinyEntries tag entries = Ok retval
  ↔ Forall2 (λ x r, decodeTinyEntry tag x = Ok r) entries retval.
Proof. rewrite decodeTinyEntries_list. apply decodeTinyList_Forall2. Qed.

(** X4: [decodeTinyEntries] succeeds exactly when every entry is a sequence
    that starts with an unsigned integer and a mapping. *)
Theorem decodeTinyEntries_Ok_iff tag entries :
  (∃ retval, decodeTinyEntries tag entries = Ok retval)
  ↔ forallb typed_pair entries = true.
Proof.
  rewrite decodeTinyEntries_list. split; [| apply decodeTinyList_typed].
  intros [retval Hok%decodeTinyList_Forall2].
  induction Hok as [| x r es rs Hx _ IH]; [done |].
  cbn. apply andb_true_iff. split; [| done].
  apply (decodeTinyEntry_Ok_typed tag). eauto.
Qed.

Lemma decodeTinyList_Panic tag es :
  (∃ p, decodeTinyList tag es = Panic p)
  ↔ ∃ pre x post,
      es = pre ++ x :: post
      ∧ forallb typed_pair pre = true ∧ crashes x = true.
Proof.
  induction es as [|x es IH]; cbn [decodeTinyList].
  - split; [by intros [? ?] | by intros ([|??] & ? & ? & ? & _)].
  - destruct (decodeTinyEntry tag x) as [r | e | p] eqn:Hx;
      cbn [mbind outcome_bind].
    + assert (typed_pair x = true) as Hty
        by (apply (decodeTinyEntry_Ok_typed tag); eauto).
      assert (crashes x = false) as Hnc.
      { destruct (crashes x) eqn:Hc; [| done].
        apply (decodeTinyEntry_Panic tag) in Hc as [p Hp]. congruence. }
      split.
      * intros [p Hp].
        destruct (decodeTinyList tag es) as [| |p'] eqn:Hes; try done.
        destruct (proj1 IH) as (pre & y & post & -> & Hpre & Hy); [eauto |].
        exists (x :: pre), y, post. cbn. by rewrite Hty, Hpre.
      * intros ([|x' pre] & y & post & Heq & Hpre & Hy);
          injection Heq as <- ->; [congruence |].
        cbn in Hpre. apply andb_true_iff in Hpre as [_ Hpre].
        destruct (proj2 IH) as [p ->]; [by exists pre, y, post |]. eauto.
    + split; [by intros [? ?] |].
      intros ([|x' pre] & y & post & Heq & Hpre & Hy); injection Heq as <- ->.
      * apply (decodeTinyEntry_Panic tag) in Hy as [p Hp]. congruence.
      * cbn in Hpre. apply andb_true_iff in Hpre as [Hty _].
        apply (decodeTinyEntry_typed tag) in Hty as [r Hr]. congruence.
    + split; [| eauto]. intros _. exists [], x, es.
      repeat split. apply (decodeTinyEntry_Panic tag). eauto.
Qed.

(** X5: [decodeTinyEntries] panics exactly when, after entries that start
    with an unsigned integer and a mapping, there comes a value that is no
    sequence, an empty sequence or a sequence of one unsigned integer. *)
Theorem decodeTinyEntries_Panic_iff tag entries :
  (∃ p, decodeTinyEntries tag entries = Panic p)
  ↔ ∃ pre x post,
      entries = pre ++ x :: post
      ∧ forallb typed_pair pre = true ∧ crashes x = true.
Proof. rewrite decodeTinyEntries_list. apply decodeTinyList_Panic. Qed.

Lemma decodeTinyList_records tag es rs :
  decodeTinyList tag es = Ok rs →
  Forall (λ r, Tag r = string_of_bytes tag
               ∧ has_bytes_in_maps (Map (Data r)) = false) rs.
Proof.
  intros Hok%decodeTinyList_Forall2.
  induction Hok as [| x r es rs Hx _ IH]; constructor; [| done].
  apply decodeTinyEntry_Ok in Hx as (ts & data & rest & _ & ->). cbn.
  split; [done |]. apply (coerce_value_no_bytes_in_maps (Map data)).
Qed.

Section decoder_invariants.

Variable DecodeBytes : list byte → error + list value.
Variable uint64_unrepresentable : spec_float → Z.

#[local] Abbreviation decodeRetval :=
  (decodeRetval DecodeBytes uint64_unrepresentable).
#[local] Abbreviation decodeEntries :=
  (decodeEntries DecodeBytes uint64_unrepresentable).

(** The four ways in which a call succeeds. *)
Lemma decodeRetval_Ok Decode retval :
  decodeRetval Decode = Ok retval →
  ∃ v tag,
    Decode = inr v ∧ v0 v = Bytes tag
    ∧ ((∃ ts data,
          v1 v = Uint64 ts ∧ v2 v = Map data
          ∧ retval = [ {| Tag := string_of_bytes tag; Timestamp := ts;
                          Data := coerceInPlace data |} ])
       ∨ (∃ f data,
            v1 v = Float64 f ∧ v2 v = Map data
            ∧ retval
              = [ {| Tag := string_of_bytes tag;
                     Timestamp := uint64_of_float64 uint64_unrepresentable f;
                     Data := data |} ])
       ∨ (∃ es, v1 v = Slice es ∧ decodeTinyList tag es = Ok retval)
       ∨ (∃ packed es,
            v1 v = Bytes packed ∧ DecodeBytes packed = inr es
            ∧ decodeTinyList tag es = Ok retval)).
Proof.
  destruct Decode as [err | [x0 x1 x2]]; [done |].
  unfold decodeRetval. cbn [v0 v1 v2].
  destruct x0 as [| | | | | tag | | |]; try done.
  intros Hok. exists (mkFrame (Bytes tag) x1 x2), tag.
  split; [done |]. split; [done |]. cbn [v1 v2].
  destruct x1 as [| | | ts | f | packed | | es |]; try done.
  - left. destruct x2; try done. injection Hok as <-. eauto.
  - right; left. destruct x2; try done. injection Hok as <-. eauto.
  - right; right; right. cbn in Hok.
    destruct (DecodeBytes packed) as [| es] eqn:Hdec; [done |].
    rewrite decodeTinyEntries_list in Hok. eauto 10.
  - right; right; left. cbn in Hok.
    rewrite decodeTinyEntries_list in Hok. eauto.
Qed.

(** X6: every record of a successful call carries the tag of the frame,
    whatever the shape of the frame. *)
Theorem decodeEntries_records_tag v input retval :
  (decodeEntries (inr v) input).1 = Ok retval →
  ∃ tag, v0 v = Bytes tag
         ∧ Forall (λ r, Tag r = string_of_bytes tag) retval.
Proof.
  unfold decodeEntries.
  destruct (decodeRetval (inr v)) as [rs | |] eqn:Hok; [| done..].
  intros [= ->].
  apply decodeRetval_Ok in Hok
    as (v' & tag & [= <-] & Htag & [H | [H | [H | H]]]).
  all: exists tag; split; [done |].
  - destruct H as (ts & data & _ & _ & ->). by repeat constructor.
  - destruct H as (f & data & _ & _ & ->). by repeat constructor.
  - destruct H as (es & _ & Hes%decodeTinyList_records).
    eapply Forall_impl; [exact Hes | by intros r [? _]].
  - destruct H as (packed & es & _ & _ & Hes%decodeTinyList_records).
    eapply Forall_impl; [exact Hes | by intros r [? _]].
Qed.

(** X7: when the second element of the frame is no float, the data of every
    record of a successful call holds no byte-sequence behind mappings. *)
Theorem decodeEntries_records_normalized v input retval :
  (decodeEntries (inr v) input).1 = Ok retval →
  is_Float64 (v1 v) = false →
  Forall (λ r, has_bytes_in_maps (Map (Data r)) = false) retval.
Proof.
  unfold decodeEntries.
  destruct (decodeRetval (inr v)) as [rs | |] eqn:Hok; [| done..].
  intros [= ->] Hfloat.
  apply decodeRetval_Ok in Hok
    as (v' & tag & [= <-] & Htag & [H | [H | [H | H]]]).
  - destruct H as (ts & data & _ & _ & ->). repeat constructor.
    apply (coerce_value_no_bytes_in_maps (Map data)).
  - destruct H as (f & data & Hv1 & _). by rewrite Hv1 in Hfloat.
  - destruct H as (es & _ & Hes%decodeTinyList_records).
    eapply Forall_impl; [exact Hes | by intros r [_ ?]].
  - destruct H as (packed & es & _ & _ & Hes%decodeTinyList_records).
    eapply Forall_impl; [exact Hes | by intros r [_ ?]].
Qed.


End decoder_invariants.

(** * Properties of the connection handler *)

Lemma records_in_snoc batches b :
  records_in (batches ++ [b]) = (records_in batches + Z.of_nat (length b))%Z.
Proof.
  induction batches as [|b' batches IH]; cbn; [lia |].
  change (foldr _ 0%Z (batches ++ [b])) with (records_in (batches ++ [b])).
  change (foldr _ 0%Z batches) with (records_in batches). lia.
Qed.

Section handler_facts.

Variable DecodeBytes : list byte → error + list value.
Variable uint64_unrepresentable : spec_float → Z.
Variable net_Temporary : string → bool.

#[local] Abbreviation decodeRetval :=
  (decodeRetval DecodeBytes uint64_unrepresentable).
#[local] Abbreviation decodeEntries :=
  (decodeEntries DecodeBytes uint64_unrepresentable).
#[local] Abbreviation handle_loop :=
  (handle_loop DecodeBytes uint64_unrepresentable net_Temporary).
#[local] Abbreviation handle :=
  (handle DecodeBytes uint64_unrepresentable net_Temporary).
#[local] Abbreviation passes :=
  (passes DecodeBytes uint64_unrepresentable net_Temporary).
#[local] Abbreviation batch_of :=
  (batch_of DecodeBytes uint64_unrepresentable).
#[local] Abbreviation temporary := (temporary net_Temporary).
#[local] Abbreviation emitted_by :=
  (emitted_by DecodeBytes uint64_unrepresentable net_Temporary).

(** One turn of the loop, by the result of the decoder. *)
Lemma handle_loop_cons Decode script s :
  handle_loop (Decode :: script) s
  = match decodeRetval Decode with
    | Ok batch =>
        handle_loop script
          {| counter :=
               {| entries := atomic_AddInt64 (entries (counter s))
                               (Z.of_nat (length batch)) |};
             clients := clients s;
             emitted := emitted s ++ [batch] |}
    | Err err =>
        if temporary err then
          handle_loop script
            {| counter := counter s; clients := clients s;
               emitted := emitted s |}
        else (broke, {| counter := counter s; clients := clients s;
                        emitted := emitted s |})
    | Panic p => (panicked p, s)
    end.
Proof.
  simpl. unfold decodeEntries. by destruct (decodeRetval Decode).
Qed.

Lemma Listener_eta s :
  {| counter := counter s; clients := clients s; emitted := emitted s |} = s.
Proof. by destruct s. Qed.

(** The loop does not touch the registry. *)
Lemma handle_loop_clients script s :
  clients (handle_loop script s).2 = clients s.
Proof.
  revert s. induction script as [|Decode script IH]; intros s; [done |].
  rewrite handle_loop_cons. destruct (decodeRetval Decode) as [rs | e | p].
  - by rewrite IH.
  - destruct (temporary e); [by rewrite IH | done].
  - done.
Qed.

(** On decode results that all pass, the loop goes through, emits their
    batches, and waits. *)
Lemma handle_loop_passes pre rest s :
  forallb passes pre = true →
  handle_loop (pre ++ rest) s = handle_loop rest (handle_loop pre s).2
  ∧ emitted (handle_loop pre s).2 = emitted s ++ mjoin (batch_of <$> pre).
Proof.
  revert s. induction pre as [|Decode pre IH]; intros s Hpre.
  - cbn. by rewrite app_nil_r.
  - cbn in Hpre. apply andb_true_iff in Hpre as [Hd Hpre].
    cbn [app]. rewrite !handle_loop_cons.
    unfold passes in Hd. cbn [fmap list_fmap mjoin list_join].
    unfold batch_of at 1.
    destruct (decodeRetval Decode) as [rs | e | p]; [| | done].
    + match goal with
      | |- handle_loop _ ?s0 = _ ∧ _ => destruct (IH s0 Hpre) as [-> ->]
      end.
      split; [done |]. cbn. by rewrite <- app_assoc.
    + rewrite Hd.
      match goal with
      | |- handle_loop _ ?s0 = _ ∧ _ => destruct (IH s0 Hpre) as [-> ->]
      end.
      done.
Qed.

(** X9: a decode error that is not temporary, after decode results that all
    pass, ends the handler: the connection is closed and taken out of the
    registry, the batches emitted are those of the results before the error,
    in order, and whatever the connection delivers after the error is never
    decoded. *)
Theorem handle_fatal_error c pre Decode post s err :
  forallb passes pre = true →
  decodeRetval Decode = Err err →
  temporary err = false →
  (handle c (pre ++ Decode :: post) s).1 = closed
  ∧ emitted (handle c (pre ++ Decode :: post) s).2
    = emitted s ++ mjoin (batch_of <$> pre)
  ∧ clients (handle c (pre ++ Decode :: post) s).2
    = delete (conn c) (clients s)
  ∧ handle c (pre ++ Decode :: post) s = handle c (pre ++ [Decode]) s.
Proof.
  intros Hpre Hd Htemp. unfold handle.
  destruct (handle_loop_passes pre (Decode :: post) s Hpre) as [-> Hem].
  destruct (handle_loop_passes pre [Decode] s Hpre) as [-> _].
  rewrite !handle_loop_cons, Hd, Htemp. cbn.
  by rewrite Hem, handle_loop_clients.
Qed.

(** X10: a handler changes the registry in one way only: when it ends by
    closing, its own connection is taken out; the registration of every
    other connection stays as it was, whatever the script. *)
Theorem handle_registry c script s :
  match (handle c script s).1 with
  | closed => clients (handle c script s).2 = delete (conn c) (clients s)
  | _ => clients (handle c script s).2 = clients s
  end
  ∧ ∀ n, n ≠ conn c → clients (handle c script s).2 !! n = clients s !! n.
Proof.
  unfold handle. pose proof (handle_loop_clients script s) as Hcl.
  destruct (handle_loop script s) as [[| |p] s']; cbn in *; rewrite Hcl.
  - done.
  - split; [done |]. intros n Hn. by rewrite lookup_delete_ne.
  - done.
Qed.

Lemma records_in_app b1 b2 :
  records_in (b1 ++ b2) = (records_in b1 + records_in b2)%Z.
Proof.
  induction b1 as [|b b1 IH]; [done |]. cbn [app].
  change (records_in (b :: ?l)) with (Z.of_nat (length b) + records_in l)%Z.
  lia.
Qed.

Lemma records_in_nonneg batches : (0 ≤ records_in batches)%Z.
Proof.
  induction batches as [|b batches IH]; [done |].
  change (records_in (b :: batches))
    with (Z.of_nat (length b) + records_in batches)%Z.
  lia.
Qed.

(** What the loop emits does not depend on the state it starts in. *)
Lemma handle_loop_emitted script s :
  emitted (handle_loop script s).2 = emitted s ++ emitted_by script.
Proof.
  revert s. induction script as [|Decode script IH]; intros s.
  - cbn. by rewrite app_nil_r.
  - rewrite handle_loop_cons. simpl emitted_by.
    destruct (decodeRetval Decode) as [rs | e | p].
    + rewrite IH. cbn. by rewrite <- app_assoc.
    + destruct (temporary e); [by rewrite IH |]. cbn. by rewrite app_nil_r.
    + cbn. by rewrite app_nil_r.
Qed.

Lemma handle_loop_counter script s :
  (0 ≤ entries (counter s))%Z →
  (entries (counter s) + records_in (emitted_by script) < 2 ^ 63)%Z →
  entries (counter (handle_loop script s).2)
  = (entries (counter s) + records_in (emitted_by script))%Z.
Proof.
  revert s. induction script as [|Decode script IH]; intros s Hpos Hlt.
  - cbn. lia.
  - rewrite handle_loop_cons. simpl emitted_by in *.
    destruct (decodeRetval Decode) as [rs | e | p].
    + pose proof (records_in_nonneg (emitted_by script)) as Hnn.
      change (records_in (rs :: ?l))
        with (Z.of_nat (length rs) + records_in l)%Z in *.
      rewrite IH; cbn [counter entries]; unfold atomic_AddInt64;
        rewrite wrap_int64_id by lia; lia.
    + destruct (temporary e).
      * rewrite IH; cbn [counter]; lia.
      * cbn in *. lia.
    + cbn in *. lia.
Qed.

(** X11: a handler emits the batches of the frames that decode, in order, up
    to the first result on which its loop stops, and over its life the
    counter grows by exactly the number of records in them, as long as the
    counter starts at a value that is not negative and stays below
    [2 ^ 63]. *)
Theorem handle_counter_emitted c script s :
  (0 ≤ entries (counter s))%Z →
  (entries (counter s) + records_in (emitted_by script) < 2 ^ 63)%Z →
  emitted (handle c script s).2 = emitted s ++ emitted_by script
  ∧ entries (counter (handle c script s).2)
    = (entries (counter s) + records_in (emitted_by script))%Z.
Proof.
  unfold handle. intros Hpos Hlt.
  pose proof (handle_loop_counter script s Hpos Hlt) as Hcount.
  pose proof (handle_loop_emitted script s) as Hem.
  by destruct (handle_loop script s) as [[| |p] s'].
Qed.

(** X12: accepting a connection that is not registered raises the number of
    connections by one, and when its handler ends by closing, the registry
    is again what it was before the accept. *)
Theorem Run_then_handle_registry n script s :
  clients s !! n = None →
  (handle (mkForwardClient n) script (Run (inr n) s).2).1 = closed →
  (Run (inr n) s).1 = inr (mkForwardClient n)
  ∧ connectionCount (Run (inr n) s).2 = S (connectionCount s)
  ∧ clients (handle (mkForwardClient n) script (Run (inr n) s).2).2
    = clients s.
Proof.
  intros Hfresh Hclosed. split; [done |]. split.
  - unfold connectionCount. cbn. by apply map_size_insert_None.
  - unfold handle in *.
    pose proof (handle_loop_clients script (Run (inr n) s).2) as Hcl.
    destruct (handle_loop script (Run (inr n) s).2) as [[| |p] s'];
      try done.
    cbn in *. rewrite Hcl. by apply delete_insert_id.
Qed.

(** X19: on results that all pass, frames that decode and temporary errors
    in any number, the handler never closes: it stays active and registered,
    and has emitted the batch of every frame, in order. *)
Theorem handle_passes_stays_active c script s :
  forallb passes script = true →
  (handle c script s).1 = active
  ∧ clients (handle c script s).2 = clients s
  ∧ emitted (handle c script s).2 = emitted s ++ mjoin (batch_of <$> script).
Proof.
  intros Hpass. unfold handle.
  destruct (handle_loop_passes script [] s Hpass) as [Hloop Hem].
  rewrite app_nil_r in Hloop. cbn in Hloop.
  pose proof (handle_loop_clients script s) as Hcl.
  destruct (handle_loop script s) as [[| |p] s'] eqn:Hrun; cbn in *.
  - done.
  - by apply (f_equal fst) in Hloop.
  - by apply (f_equal fst) in Hloop.
Qed.

(** X20: a Forward frame whose first entry is no sequence, an empty sequence
    or a sequence of one unsigned integer, arriving after results that all
    pass, ends the handler by a panic, which ends the process with every
    connection in it; the connection is still in the registry. *)
Theorem handle_crashing_frame c pre tag x rest third post s :
  forallb passes pre = true →
  crashes x = true →
  ∃ p,
    (handle c
       (pre ++ inr (mkFrame (Bytes tag) (Slice (x :: rest)) third) :: post)
       s).1 = crashed p
    ∧ clients
        (handle c
           (pre ++ inr (mkFrame (Bytes tag) (Slice (x :: rest)) third)
            :: post) s).2 = clients s.
Proof.
  intros Hpass Hx.
  apply (decodeTinyEntry_Panic tag) in Hx as [p Hp]. exists p.
  unfold handle.
  destruct (handle_loop_passes pre
              (inr (mkFrame (Bytes tag) (Slice (x :: rest)) third) :: post)
              s Hpass) as [-> _].
  rewrite handle_loop_cons.
  assert (decodeRetval (inr (mkFrame (Bytes tag) (Slice (x :: rest)) third))
          = Panic p) as ->.
  { rewrite decodeRetval_forward. cbn [decodeTinyList]. by rewrite Hp. }
  cbn. split; [done |]. apply handle_loop_clients.
Qed.

End handler_facts.
(** ** The handler on the sample script *)

Example handle_sample_script :
  handle msgpack_DecodeBytes any_uint64 timeout_only (mkForwardClient 7)
    sample_script
    {| counter := mkForwardInput 0;
       clients := {[ 7 := mkForwardClient 7; 8 := mkForwardClient 8 ]};
       emitted := [] |}
  = (closed,
     {| counter := mkForwardInput 3;
        clients := {[ 8 := mkForwardClient 8 ]};
        emitted :=
          [ [ {| Tag := "app"; Timestamp := 1000;
                 Data := {[ "k" := Str "v" ]} |} ];
            [ {| Tag := "app"; Timestamp := 1000;
                 Data := {[ "k" := Str "v" ]} |};
              {| Tag := "app"; Timestamp := 1001; Data := ∅ |} ] ] |}).
Proof. vm_compute. reflexivity. Qed.

(** The theorem on the Forward frame of the sample pairs. *)
Lemma decodeEntries_records_tag_witness :
  (decodeEntries msgpack_DecodeBytes any_uint64
     (inr (mkFrame (Bytes sample_tag) (Slice sample_pairs) Nil))
     (mkForwardInput 0)).1
  = Ok [ {| Tag := "app"; Timestamp := 1000;
            Data := {[ "k" := Str "v" ]} |};
         {| Tag := "app"; Timestamp := 1001; Data := ∅ |} ]
  ∧ ∃ tag,
      v0 (mkFrame (Bytes sample_tag) (Slice sample_pairs) Nil) = Bytes tag
      ∧ Forall (λ r, Tag r = string_of_bytes tag)
          [ {| Tag := "app"; Timestamp := 1000;
               Data := {[ "k" := Str "v" ]} |};
            {| Tag := "app"; Timestamp := 1001; Data := ∅ |} ].
Proof.
  split; [vm_compute; reflexivity |].
  apply (decodeEntries_records_tag msgpack_DecodeBytes any_uint64
           (mkFrame (Bytes sample_tag) (Slice sample_pairs) Nil)
           (mkForwardInput 0)).
  vm_compute. reflexivity.
Defined.

(** The theorem on the PackedForward frame of the sample pairs. *)
Lemma decodeEntries_records_normalized_witness :
  (decodeEntries msgpack_DecodeBytes any_uint64
     (inr (mkFrame (Bytes sample_tag) (Bytes sample_packed) Nil))
     (mkForwardInput 0)).1
  = Ok [ {| Tag := "app"; Timestamp := 1000;
            Data := {[ "k" := Str "v" ]} |};
         {| Tag := "app"; Timestamp := 1001; Data := ∅ |} ]
  ∧ is_Float64 (v1 (mkFrame (Bytes sample_tag) (Bytes sample_packed) Nil))
    = false
  ∧ Forall (λ r, has_bytes_in_maps (Map (Data r)) = false)
      [ {| Tag := "app"; Timestamp := 1000;
           Data := {[ "k" := Str "v" ]} |};
        {| Tag := "app"; Timestamp := 1001; Data := ∅ |} ].
Proof.
  split; [vm_compute; reflexivity |]. split; [reflexivity |].
  apply (decodeEntries_records_normalized msgpack_DecodeBytes any_uint64
           (mkFrame (Bytes sample_tag) (Bytes sample_packed) Nil)
           (mkForwardInput 0)); [vm_compute; reflexivity | reflexivity].
Defined.

(** The theorem on the sample script: three results pass, the frame without
    a tag is fatal, the last frame is never decoded. *)
Lemma handle_fatal_error_witness :
  forallb (passes msgpack_DecodeBytes any_uint64 timeout_only)
    (take 3 sample_script) = true
  ∧ decodeRetval msgpack_DecodeBytes any_uint64 (inr (mkFrame Nil Nil Nil))
    = Err (errors_New "Failed to decode tag field")
  ∧ temporary timeout_only (errors_New "Failed to decode tag field") = false
  ∧ (handle msgpack_DecodeBytes any_uint64 timeout_only (mkForwardClient 7)
       (take 3 sample_script ++ inr (mkFrame Nil Nil Nil)
        :: drop 4 sample_script) empty_listener).1 = closed
  ∧ emitted
      (handle msgpack_DecodeBytes any_uint64 timeout_only (mkForwardClient 7)
         (take 3 sample_script ++ inr (mkFrame Nil Nil Nil)
          :: drop 4 sample_script) empty_listener).2
    = emitted empty_listener
      ++ mjoin (batch_of msgpack_DecodeBytes any_uint64
                  <$> take 3 sample_script)
  ∧ clients
      (handle msgpack_DecodeBytes any_uint64 timeout_only (mkForwardClient 7)
         (take 3 sample_script ++ inr (mkFrame Nil Nil Nil)
          :: drop 4 sample_script) empty_listener).2
    = delete (conn (mkForwardClient 7)) (clients empty_listener)
  ∧ handle msgpack_DecodeBytes any_uint64 timeout_only (mkForwardClient 7)
      (take 3 sample_script ++ inr (mkFrame Nil Nil Nil)
       :: drop 4 sample_script) empty_listener
    = handle msgpack_DecodeBytes any_uint64 timeout_only (mkForwardClient 7)
        (take 3 sample_script ++ [inr (mkFrame Nil Nil Nil)]) empty_listener.
Proof.
  split; [vm_compute; reflexivity |]. split; [reflexivity |].
  split; [reflexivity |].
  apply (handle_fatal_error msgpack_DecodeBytes any_uint64 timeout_only
           (mkForwardClient 7) (take 3 sample_script)
           (inr (mkFrame Nil Nil Nil)) (drop 4 sample_script) empty_listener
           (errors_New "Failed to decode tag field"));
    [vm_compute; reflexivity | reflexivity | reflexivity].
Defined.

(** The theorem on the sample script, from a counter at 0. *)
Lemma handle_counter_emitted_witness :
  (0 ≤ entries (counter empty_listener))%Z
  ∧ (entries (counter empty_listener)
     + records_in
         (emitted_by msgpack_DecodeBytes any_uint64 timeout_only
            sample_script) < 2 ^ 63)%Z
  ∧ emitted
      (handle msgpack_DecodeBytes any_uint64 timeout_only (mkForwardClient 7)
         sample_script empty_listener).2
    = emitted empty_listener
      ++ emitted_by msgpack_DecodeBytes any_uint64 timeout_only
           sample_script
  ∧ entries
      (counter
         (handle msgpack_DecodeBytes any_uint64 timeout_only
            (mkForwardClient 7) sample_script empty_listener).2)
    = (entries (counter empty_listener)
       + records_in
           (emitted_by msgpack_DecodeBytes any_uint64 timeout_only
              sample_script))%Z.
Proof.
  split; [by vm_compute |]. split; [by vm_compute |].
  apply handle_counter_emitted; by vm_compute.
Defined.

(** The theorem on the accept of connection 7 by the empty listener, and the
    sample script. *)
Lemma Run_then_handle_registry_witness :
  clients empty_listener !! 7 = None
  ∧ (handle msgpack_DecodeBytes any_uint64 timeout_only (mkForwardClient 7)
       sample_script (Run (inr 7) empty_listener).2).1 = closed
  ∧ (Run (inr 7) empty_listener).1 = inr (mkForwardClient 7)
  ∧ connectionCount (Run (inr 7) empty_listener).2
    = S (connectionCount empty_listener)
  ∧ clients
      (handle msgpack_DecodeBytes any_uint64 timeout_only (mkForwardClient 7)
         sample_script (Run (inr 7) empty_listener).2).2
    = clients empty_listener.
Proof.
  split; [reflexivity |]. split; [vm_compute; reflexivity |].
  apply Run_then_handle_registry; [reflexivity | vm_compute; reflexivity].
Defined.

(** The theorem on the first three results of the sample script. *)
Lemma handle_passes_stays_active_witness :
  forallb (passes msgpack_DecodeBytes any_uint64 timeout_only)
    (take 3 sample_script) = true
  ∧ (handle msgpack_DecodeBytes any_uint64 timeout_only (mkForwardClient 7)
       (take 3 sample_script) empty_listener).1 = active
  ∧ clients
      (handle msgpack_DecodeBytes any_uint64 timeout_only (mkForwardClient 7)
         (take 3 sample_script) empty_listener).2
    = clients empty_listener
  ∧ emitted
      (handle msgpack_DecodeBytes any_uint64 timeout_only (mkForwardClient 7)
         (take 3 sample_script) empty_listener).2
    = emitted empty_listener
      ++ mjoin (batch_of msgpack_DecodeBytes any_uint64
                  <$> take 3 sample_script).
Proof.
  split; [vm_compute; reflexivity |].
  apply handle_passes_stays_active. vm_compute. reflexivity.
Defined.

(** The theorem on a Forward frame that holds the integer 5 where a pair
    should be, after the first three results of the sample script. *)
Lemma handle_crashing_frame_witness :
  forallb (passes msgpack_DecodeBytes any_uint64 timeout_only)
    (take 3 sample_script) = true
  ∧ crashes (Uint64 5) = true
  ∧ ∃ p,
      (handle msgpack_DecodeBytes any_uint64 timeout_only (mkForwardClient 7)
         (take 3 sample_script
          ++ inr (mkFrame (Bytes sample_tag) (Slice (Uint64 5 :: [])) Nil)
          :: [])
         (Run (inr 7) empty_listener).2).1 = crashed p
      ∧ clients
          (handle msgpack_DecodeBytes any_uint64 timeout_only
             (mkForwardClient 7)
             (take 3 sample_script
              ++ inr (mkFrame (Bytes sample_tag) (Slice (Uint64 5 :: []))
                        Nil)
              :: [])
             (Run (inr 7) empty_listener).2).2
        = clients (Run (inr 7) empty_listener).2.
Proof.
  split; [vm_compute; reflexivity |]. split; [reflexivity |].
  apply handle_crashing_frame; [vm_compute; reflexivity | reflexivity].
Defined.

